(** * Backward register-definition search of capa's vivisect extractor

    A shallow embedding of [capa/features/extractors/viv/indirect_calls.py]
    and the properties of its four functions:
    [get_previous_instructions], [find_definition], [is_indirect_call] and
    [resolve_indirect_call].

    The vivisect workspace [vw] is an object owned by another library.  It
    is modelled by the three read-only operations the module calls on it.
    Python exceptions are an explicit [result]; the [while] loop of
    [find_definition] is a fuelled iteration of its body, and running out
    of fuel ([None]) is kept apart from every Python outcome. *)

From Stdlib Require Import ZArith Lia.
From stdpp Require Import base decidable option list strings gmap sets relations.

Local Open Scope Z_scope.

(** ** Data of the external libraries *)

(** The constants the module pulls out of [envi] and [vivisect.const]
    (lines 14-17), and the interpreter's [__debug__]: true unless Python
    runs with -O, when an [assert] statement generates no code.  Their
    values live outside the repository, so every definition below takes
    them as a parameter. *)
Class Consts := {
  LOC_OP : Z;
  IF_NOFALL : Z;
  REF_CODE : Z;
  BR_PROC : Z;
  BR_DEREF : Z;
  BR_ARCH : Z;
  __debug__ : bool
}.

(** Modelled from the spec: the operand classes of envi's disassemblers
    ([i386RegOper], [i386ImmOper], [i386ImmMemOper], [Amd64RipRelOper]) are
    declared outside the repository.  The spec's data model gives the closed
    union Register(register-id), Immediate(value), MemoryImmediate(address),
    RipRelative(displacement), Other; an [isinstance] test of the source is
    a constructor test here. *)
Inductive Operand : Type :=
  | i386RegOper (reg : Z)
  | i386ImmOper (imm : Z)
  | i386ImmMemOper (imm : Z)
  | Amd64RipRelOper (imm : Z)
  | OtherOper.

(** A decoded instruction: the attributes of an envi opcode the module
    reads ([insn.mnem], [insn.opers]) and the two a RIP-relative operand
    needs to resolve its target ([va], [size]). *)
Record Opcode : Type := {
  op_va : Z;
  op_size : Z;
  mnem : string;
  opers : list Operand
}.

(** Modelled from the spec: what the operand accessors return without an
    emulator.  An immediate is its literal value, an immediate memory
    operand the literal address it names, and a RIP-relative operand the
    statically computed absolute address: the address of the next
    instruction plus the displacement. *)
Definition imm_getOperValue (imm : Z) : Z := imm.
Definition immmem_getOperAddr (imm : Z) : Z := imm.
Definition riprel_getOperAddr (imm : Z) (op : Opcode) : Z :=
  op_va op + op_size op + imm.

(** vivisect tuples: a location is (L_VA, L_SIZE, L_LTYPE, L_TINFO) and a
    cross-reference is (XR_FROM, XR_TO, XR_RTYPE, XR_RFLAG). *)
Definition Location : Type := Z * Z * Z * Z.
Definition Xref : Type := Z * Z * Z * Z.

(** The workspace, through the calls the module makes:
    [vw.getPrevLocation(va, adjacent)], [vw.getXrefsTo(va, rtype)] and
    [vw.parseOpcode(va)], where [None] stands for the provider raising. *)
Record Workspace : Type := {
  getPrevLocation : Z -> bool -> option Location;
  getXrefsTo : Z -> Z -> list Xref;
  parseOpcode : Z -> option Opcode
}.

(** ** Exceptions *)

Inductive exn : Type :=
  | NotFoundError
  | IndexError
  | AttributeError
  | AssertionError
  | ProviderError.

Inductive result (A : Type) : Type :=
  | Ok (a : A)
  | Raise (e : exn).
Arguments Ok {A} a.
Arguments Raise {A} e.

(** An exception raised by a call propagates through the caller. *)
#[global] Instance result_ret : MRet result := fun A a => Ok a.
#[global] Instance result_bind : MBind result := fun A B k r =>
  match r with
  | Ok a => k a
  | Raise e => Raise e
  end.

(** [vw.parseOpcode(cur)] inside the error monad. *)
Definition decode (vw : Workspace) (a : Z) : result Opcode :=
  match parseOpcode vw a with
  | Some insn => Ok insn
  | None => Raise ProviderError
  end.

(** ** The module *)

Definition DESTRUCTIVE_MNEMONICS : list string := ["mov"; "lea"; "pop"; "xor"]%string.

Definition isinstance_i386RegOper (o : Operand) : bool :=
  match o with i386RegOper _ => true | _ => false end.

Section Module.
Context `{consts : Consts}.

Definition FAR_BRANCH_MASK : Z := Z.lor (Z.lor BR_PROC BR_DEREF) BR_ARCH.

(** Lines 33-56.  [ret.append] is [++ [_]]; the two calls of
    [getPrevLocation] read the same workspace and give the same tuple. *)
Definition get_previous_instructions (vw : Workspace) (va : Z) : list Z :=
  let ret := [] in
  let loc := getPrevLocation vw va true in
  let ret :=
    match loc with
    | Some (pva, _, ptype, pinfo) =>
        if (ptype =? LOC_OP) && (Z.land pinfo IF_NOFALL =? 0)
        then ret ++ [pva]
        else ret
    | None => ret
    end in
  fold_left
    (fun ret (x : Xref) =>
       let '(xfrom, _, _, xflag) := x in
       if negb (Z.land xflag FAR_BRANCH_MASK =? 0) then ret else ret ++ [xfrom])
    (getXrefsTo vw va REF_CODE) ret.

(** Lines 98-101: the test that makes [cur] a definition of [reg]. *)
Definition is_destructive (reg : Z) (opnd0 : Operand) (insn : Opcode) : bool :=
  match opnd0 with
  | i386RegOper r => (r =? reg) && bool_decide (mnem insn ∈ DESTRUCTIVE_MNEMONICS)
  | _ => false
  end.

(** Lines 110-122: the constant, if the instruction shows one.
    [insn.opers[1]] raises IndexError past the end of the list. *)
Definition extract_constant (cur : Z) (insn : Opcode) : result (Z * option Z) :=
  if bool_decide (mnem insn ≠ "mov"%string) then Ok (cur, None)
  else
    match opers insn !! 1%nat with
    | None => Raise IndexError
    | Some (i386ImmOper imm) => Ok (cur, Some (imm_getOperValue imm))
    | Some (i386ImmMemOper imm) => Ok (cur, Some (immmem_getOperAddr imm))
    | Some (Amd64RipRelOper imm) => Ok (cur, Some (riprel_getOperAddr imm insn))
    | Some _ => Ok (cur, None)
    end.

(** One pass through the body of the [while] loop: either the loop goes on
    with a new queue and visited set, or the function leaves. *)
Inductive iteration : Type :=
  | Continue (q : list Z) (seen : gset Z)
  | Leave (r : result (Z * option Z)).

(** Lines 84-122, after [cur = q.popleft()] left [q] behind. *)
Definition loop_body (vw : Workspace) (reg : Z)
    (cur : Z) (q : list Z) (seen : gset Z) : iteration :=
  if decide (cur ∈ seen) then Continue q seen
  else
    let seen := {[cur]} ∪ seen in
    match decode vw cur with
    | Raise e => Leave (Raise e)
    | Ok insn =>
        match opers insn with
        | [] => Continue (q ++ get_previous_instructions vw cur) seen
        | opnd0 :: _ =>
            if negb (is_destructive reg opnd0 insn)
            then Continue (q ++ get_previous_instructions vw cur) seen
            else Leave (extract_constant cur insn)
        end
    end.

(** Lines 83-124: [while q: ...] followed by [raise NotFoundError()]. *)
Fixpoint find_definition_loop (fuel : nat) (vw : Workspace) (reg : Z)
    (q : list Z) (seen : gset Z) : option (result (Z * option Z)) :=
  match fuel with
  | O => None
  | S fuel =>
      match q with
      | [] => Some (Raise NotFoundError)
      | cur :: q =>
          match loop_body vw reg cur q seen with
          | Continue q seen => find_definition_loop fuel vw reg q seen
          | Leave r => Some r
          end
      end
  end.

(** Lines 79-124. *)
Definition find_definition (fuel : nat) (vw : Workspace) (va reg : Z)
    : option (result (Z * option Z)) :=
  find_definition_loop fuel vw reg (get_previous_instructions vw va) ∅.

(** Lines 127-132.  [and] evaluates [insn.opers[0]] only for a call. *)
Definition is_indirect_call (vw : Workspace) (va : Z) (insn : option Opcode)
    : result bool :=
  insn ← match insn with
          | None => decode vw va
          | Some insn => Ok insn
          end;
  if bool_decide (mnem insn = "call"%string) then
    match opers insn with
    | [] => Raise IndexError
    | opnd0 :: _ => Ok (isinstance_i386RegOper opnd0)
    end
  else Ok false.

(** Lines 149-154.  The [assert] of line 152 runs under [__debug__]
    only; line 154 then reads [insn.opers[0].reg], an IndexError for an
    empty operand list and an AttributeError for an operand that carries
    no register. *)
Definition resolve_indirect_call (fuel : nat) (vw : Workspace) (va : Z)
    (insn : option Opcode) : option (result (Z * option Z)) :=
  match (match insn with
         | None => decode vw va
         | Some insn => Ok insn
         end) with
  | Raise e => Some (Raise e)
  | Ok insn =>
      match (if __debug__ then is_indirect_call vw va (Some insn)
             else Ok true) with
      | Raise e => Some (Raise e)
      | Ok false => Some (Raise AssertionError)
      | Ok true =>
          match opers insn with
          | [] => Some (Raise IndexError)
          | i386RegOper reg :: _ => find_definition fuel vw va reg
          | _ :: _ => Some (Raise AttributeError)
          end
      end
  end.

(** ** Notions the properties are stated with *)

(** The addresses, in order, that the loop started with [fuel], [q] and
    [seen] hands to [vw.parseOpcode]: the iterations that get past the
    [seen] test of lines 87-89. *)
Fixpoint processed (fuel : nat) (vw : Workspace) (reg : Z)
    (q : list Z) (seen : gset Z) : list Z :=
  match fuel with
  | O => []
  | S fuel =>
      match q with
      | [] => []
      | cur :: q =>
          (if decide (cur ∈ seen) then [] else [cur]) ++
          match loop_body vw reg cur q seen with
          | Continue q seen => processed fuel vw reg q seen
          | Leave _ => []
          end
      end
  end.

(** The fallthrough edge into [va], in the words of the spec: the location
    just before [va] is a decoded instruction that falls through. *)
Definition falls_through_from (vw : Workspace) (va a : Z) : Prop :=
  ∃ sz pinfo, getPrevLocation vw va true = Some (a, sz, LOC_OP, pinfo)
              ∧ Z.land pinfo IF_NOFALL = 0.

(** An edge flagged as a far branch: process-crossing, pointer-dereferenced
    or architecture-crossing. *)
Definition far_branch (xflag : Z) : Prop :=
  Z.land xflag BR_PROC ≠ 0 ∨ Z.land xflag BR_DEREF ≠ 0 ∨ Z.land xflag BR_ARCH ≠ 0.

(** A code cross-reference from [a] to [va] that is not a far branch. *)
Definition near_code_xref_from (vw : Workspace) (va a : Z) : Prop :=
  ∃ xto rtype xflag, (a, xto, rtype, xflag) ∈ getXrefsTo vw va REF_CODE
                     ∧ ¬ far_branch xflag.

(** The same two kinds of edges as lists, one entry per edge. *)
Definition fallthrough_edge (vw : Workspace) (va : Z) : list Z :=
  match getPrevLocation vw va true with
  | Some (pva, _, ptype, pinfo) =>
      if decide (ptype = LOC_OP ∧ Z.land pinfo IF_NOFALL = 0) then [pva] else []
  | None => []
  end.

Definition near_xref_sources (vw : Workspace) (va : Z) : list Z :=
  omap (fun x : Xref =>
          let '(xfrom, _, _, xflag) := x in
          if decide (far_branch xflag) then None else Some xfrom)
       (getXrefsTo vw va REF_CODE).

(** [b] flows into [a]; the addresses reachable backward from [va] in at
    least one step. *)
Definition predecessor (vw : Workspace) (a b : Z) : Prop :=
  b ∈ get_previous_instructions vw a.

Definition backward_reachable (vw : Workspace) (va : Z) : Z -> Prop :=
  tc (predecessor vw) va.

(** The instruction at [a] decodes and is, or is not, a destructive write
    to [reg]: the test of lines 93-103 on the decoded instruction. *)
Definition defines (reg : Z) (insn : Opcode) : bool :=
  match opers insn with
  | [] => false
  | opnd0 :: _ => is_destructive reg opnd0 insn
  end.

Definition skipped_at (vw : Workspace) (reg a : Z) : Prop :=
  ∃ insn, parseOpcode vw a = Some insn ∧ defines reg insn = false.

(** The order in which a FIFO traversal of the predecessors dequeues
    addresses it has not visited, with no look at the instructions:
    steps 1 and 2 of the spec's algorithm, every address enqueueing its
    predecessors. *)
Fixpoint bfs_order (fuel : nat) (vw : Workspace)
    (q : list Z) (seen : gset Z) : option (list Z) :=
  match fuel with
  | O => None
  | S fuel =>
      match q with
      | [] => Some []
      | cur :: q =>
          if decide (cur ∈ seen) then bfs_order fuel vw q seen
          else cons cur <$>
               bfs_order fuel vw (q ++ get_previous_instructions vw cur)
                         ({[cur]} ∪ seen)
      end
  end.

(** A finite control-flow graph: a finite set of addresses that holds every
    predecessor of [va] and of its own members. *)
Definition closed_under_predecessors (vw : Workspace) (va : Z) (X : gset Z) : Prop :=
  Forall (fun b => b ∈ X) (get_previous_instructions vw va)
  ∧ set_Forall (fun a => Forall (fun b => b ∈ X) (get_previous_instructions vw a)) X.

(** The edges that leave the members of [X], counted. *)
Definition edges_into (vw : Workspace) (X : gset Z) : nat :=
  sum_list_with (fun a => length (get_previous_instructions vw a)) (elements X).

(** Iterations that are always enough: one per enqueued address and one
    for the last test of the queue. *)
Definition search_bound (vw : Workspace) (va : Z) (X : gset Z) : nat :=
  S (length (get_previous_instructions vw va) + edges_into vw X).

(** A backward path from the predecessors of [va] to [a] that crosses no
    write to [reg]: every address on it ahead of [a] decodes to an
    instruction the search passes over. *)
Inductive clear_path (vw : Workspace) (reg va : Z) : Z -> Prop :=
  | clear_path_first a :
      a ∈ get_previous_instructions vw va -> clear_path vw reg va a
  | clear_path_next b a :
      clear_path vw reg va b -> skipped_at vw reg b ->
      a ∈ get_previous_instructions vw b -> clear_path vw reg va a.

(** What lines 91-124 make of the addresses of a traversal order, taken
    one after the other: the first that does not decode raises the
    provider's error, the first destructive write to [reg] ends it with
    the extraction step, and an order with neither is exhausted. *)
Fixpoint scan (vw : Workspace) (reg : Z) (order : list Z) : result (Z * option Z) :=
  match order with
  | [] => Raise NotFoundError
  | a :: order =>
      match parseOpcode vw a with
      | None => Raise ProviderError
      | Some insn =>
          if defines reg insn then extract_constant a insn
          else scan vw reg order
      end
  end.

(** The state of the breadth-first search while it works on the addresses
    [k] steps behind [va]: the queue is [q1 ++ q2], [q1] holding addresses
    [k] steps back and [q2] addresses one step further; everything visited
    was passed over; every address fewer than [k] steps back is visited,
    every address [k] steps back is visited or waits in [q1], and the
    predecessors of a visited address are visited or wait in the queue. *)
Definition level_invariant (vw : Workspace) (reg va : Z) (k : nat)
    (q1 q2 : list Z) (seen : gset Z) : Prop :=
  (0 < k)%nat
  ∧ (∀ a, a ∈ q1 → nsteps (predecessor vw) k va a)
  ∧ (∀ a, a ∈ q2 → nsteps (predecessor vw) (S k) va a)
  ∧ (∀ a, a ∈ seen → skipped_at vw reg a)
  ∧ (∀ j a, (0 < j < k)%nat → nsteps (predecessor vw) j va a → a ∈ seen)
  ∧ (∀ a, nsteps (predecessor vw) k va a → a ∈ seen ∨ a ∈ q1)
  ∧ (∀ a b, a ∈ seen → b ∈ get_previous_instructions vw a →
            b ∈ seen ∨ b ∈ q1 ∨ b ∈ q2).

End Module.

Local Close Scope Z_scope.

(** ** Workspaces for the examples *)

(** The values vivisect and envi give the constants. *)
Definition vivisect_consts : Consts := {|
  LOC_OP := 5;
  IF_NOFALL := 1;
  REF_CODE := 1;
  BR_PROC := 1;
  BR_DEREF := 4;
  BR_ARCH := 32;
  __debug__ := true
|}.

(** The same under [python -O]. *)
Definition vivisect_consts_O : Consts := {|
  LOC_OP := 5;
  IF_NOFALL := 1;
  REF_CODE := 1;
  BR_PROC := 1;
  BR_DEREF := 4;
  BR_ARCH := 32;
  __debug__ := false
|}.

(** A workspace read off three tables: the locations, the cross-references
    and the decoded instructions. *)
Definition table_workspace (locs : list Location) (xrefs : list Xref)
    (code : list Opcode) : Workspace := {|
  getPrevLocation va _ :=
    head (filter (fun l : Location =>
                    let '(pva, sz, _, _) := l in pva + sz = va)%Z locs);
  getXrefsTo va rtype :=
    filter (fun x : Xref =>
              let '(_, xto, rt, _) := x in xto = va ∧ rt = rtype) xrefs;
  parseOpcode a := head (filter (fun i => op_va i = a) code)
|}.

Definition eax : Z := 0%Z.
Definition ecx : Z := 1%Z.
Definition BR_COND : Z := 2%Z.

Definition opcode_location (i : Opcode) (tinfo : Z) : Location :=
  (op_va i, op_size i, 5%Z, tinfo).

(** [jz] to the very next instruction: the branch and the fallthrough meet.

      0x1000  jz 0x1002
      0x1002  call eax *)
Definition jz_next : Opcode :=
  {| op_va := 0x1000; op_size := 2; mnem := "jz"; opers := [OtherOper] |}.

Definition vw_jz_next : Workspace :=
  table_workspace [opcode_location jz_next 0%Z]
                  [(0x1000, 0x1002, 1, BR_COND)%Z]
                  [jz_next].

(** [jmp] to the very next instruction: it does not fall through, and it
    is the source of a near branch to [0x1002].

      0x1000  jmp 0x1002
      0x1002  call eax *)
Definition jmp_next : Opcode :=
  {| op_va := 0x1000; op_size := 2; mnem := "jmp"; opers := [OtherOper] |}.

Definition vw_jmp_next : Workspace :=
  table_workspace [opcode_location jmp_next 1%Z]
                  [(0x1000, 0x1002, 1, 0)%Z]
                  [jmp_next].

(** A stand-in instruction that no decoder yields: a [mov] with a single
    operand.

      0x1000  mov eax
      0x1002  call eax *)
Definition mov_short : Opcode :=
  {| op_va := 0x1000; op_size := 2; mnem := "mov"; opers := [i386RegOper eax] |}.

Definition vw_mov_short : Workspace :=
  table_workspace [opcode_location mov_short 0%Z] [] [mov_short].

(** Two paths that merge in front of the call and assign [eax] differently.

      0x1000  cmp ecx, 0
      0x1003  jz 0x100c
      0x1005  mov eax, 0x1111
      0x100a  jmp 0x1011
      0x100c  mov eax, [0x402000]
      0x1011  nop
      0x1012  call eax *)
Definition merge_code : list Opcode := [
  {| op_va := 0x1000; op_size := 3; mnem := "cmp";
     opers := [i386RegOper ecx; i386ImmOper 0] |};
  {| op_va := 0x1003; op_size := 2; mnem := "jz"; opers := [OtherOper] |};
  {| op_va := 0x1005; op_size := 5; mnem := "mov";
     opers := [i386RegOper eax; i386ImmOper 0x1111] |};
  {| op_va := 0x100a; op_size := 2; mnem := "jmp"; opers := [OtherOper] |};
  {| op_va := 0x100c; op_size := 5; mnem := "mov";
     opers := [i386RegOper eax; i386ImmMemOper 0x402000] |};
  {| op_va := 0x1011; op_size := 1; mnem := "nop"; opers := [] |};
  {| op_va := 0x1012; op_size := 2; mnem := "call";
     opers := [i386RegOper eax] |}
]%Z.

Definition vw_merge : Workspace :=
  table_workspace
    [(0x1000, 3, 5, 0); (0x1003, 2, 5, 0); (0x1005, 5, 5, 0);
     (0x100a, 2, 5, 1); (0x100c, 5, 5, 0); (0x1011, 1, 5, 0);
     (0x1012, 2, 5, 0)]%Z
    [(0x1003, 0x100c, 1, BR_COND); (0x100a, 0x1011, 1, 0)]%Z
    merge_code.

(** A loop in front of the call that never assigns [eax]; [helper] calls
    the head of the loop from elsewhere.

      0x2000  nop
      0x2001  add eax, 1
      0x2002  jnz 0x2000
      0x2004  call eax
      0x3000  call 0x2000 *)
Definition loop_code : list Opcode := [
  {| op_va := 0x2000; op_size := 1; mnem := "nop"; opers := [] |};
  {| op_va := 0x2001; op_size := 1; mnem := "add";
     opers := [i386RegOper eax; i386ImmOper 1] |};
  {| op_va := 0x2002; op_size := 2; mnem := "jnz"; opers := [OtherOper] |};
  {| op_va := 0x2004; op_size := 2; mnem := "call";
     opers := [i386RegOper eax] |};
  {| op_va := 0x3000; op_size := 5; mnem := "call";
     opers := [i386ImmOper 0x2000] |}
]%Z.

Definition vw_loop : Workspace :=
  table_workspace
    [(0x2000, 1, 5, 0); (0x2001, 1, 5, 0); (0x2002, 2, 5, 0);
     (0x2004, 2, 5, 0); (0x3000, 5, 5, 0)]%Z
    [(0x2002, 0x2000, 1, BR_COND); (0x3000, 0x2000, 1, 1)]%Z
    loop_code.

Definition loop_nodes : gset Z := {[ 0x2000; 0x2001; 0x2002 ]}%Z.

(** RIP-relative load ahead of the call.

      0x4000  mov rax, [rip + 0x2ff9]
      0x4007  call rax *)
Definition riprel_code : list Opcode := [
  {| op_va := 0x4000; op_size := 7; mnem := "mov";
     opers := [i386RegOper eax; Amd64RipRelOper 0x2ff9] |};
  {| op_va := 0x4007; op_size := 2; mnem := "call";
     opers := [i386RegOper eax] |}
]%Z.

Definition vw_riprel : Workspace :=
  table_workspace [(0x4000, 7, 5, 0); (0x4007, 2, 5, 0)]%Z [] riprel_code.

(** A load through an index register: a second operand of no recognised
    shape.

      0x5000  mov eax, dword_401000[ecx]
      0x5007  call eax *)
Definition mov_indexed : Opcode :=
  {| op_va := 0x5000; op_size := 7; mnem := "mov";
     opers := [i386RegOper eax; OtherOper] |}.

Definition vw_indexed : Workspace :=
  table_workspace [opcode_location mov_indexed 0%Z] [] [mov_indexed].

(** The same two instructions with more code after the call, where the
    register is assigned again and a branch leads further on.

      0x4000  mov rax, [rip + 0x2ff9]
      0x4007  call rax
      0x4009  mov eax, 0
      0x400e  jmp 0x4010
      0x4010  nop *)
Definition vw_riprel_more : Workspace :=
  table_workspace
    [(0x4000, 7, 5, 0); (0x4007, 2, 5, 0); (0x4009, 5, 5, 0);
     (0x400e, 2, 5, 1); (0x4010, 1, 5, 0)]%Z
    [(0x400e, 0x4010, 1, 0)]%Z
    (riprel_code ++ [
       {| op_va := 0x4009; op_size := 5; mnem := "mov";
          opers := [i386RegOper eax; i386ImmOper 0] |};
       {| op_va := 0x400e; op_size := 2; mnem := "jmp"; opers := [OtherOper] |};
       {| op_va := 0x4010; op_size := 1; mnem := "nop"; opers := [] |}
     ]%Z).

(** Closed facts about the example workspaces are settled by evaluation. *)
Ltac by_evaluation := apply (bool_decide_unpack _); vm_compute; exact I.

(** * Properties *)

#[local] Set Warnings "-clear-no-such-hyp".

Section Properties.
Context `{consts : Consts}.

Implicit Types (vw : Workspace) (va reg cur a b : Z) (q : list Z)
  (seen X : gset Z) (insn : Opcode) (fuel : nat).

(** ** The predecessor locator *)

(** The mask test of line 52 is the disjunction of the three flags. *)
Lemma far_branch_mask (xflag : Z) :
  Z.land xflag FAR_BRANCH_MASK ≠ 0%Z ↔ far_branch xflag.
Proof.
  unfold FAR_BRANCH_MASK, far_branch.
  rewrite !Z.land_lor_distr_r, !Z.lor_eq_0_iff.
  destruct (decide (Z.land xflag BR_PROC = 0%Z)),
           (decide (Z.land xflag BR_DEREF = 0%Z)),
           (decide (Z.land xflag BR_ARCH = 0%Z)); tauto.
Qed.

(** The [for] loop of lines 51-54 appends the sources of the near code
    references to whatever [ret] holds. *)
Lemma xref_loop_app (xs : list Xref) (ret : list Z) :
  fold_left
    (fun ret (x : Xref) =>
       let '(xfrom, _, _, xflag) := x in
       if negb (Z.land xflag FAR_BRANCH_MASK =? 0)%Z then ret else ret ++ [xfrom])
    xs ret
  = ret ++ omap (fun x : Xref =>
                   let '(xfrom, _, _, xflag) := x in
                   if decide (far_branch xflag) then None else Some xfrom) xs.
Proof.
  revert ret. induction xs as [|[[[xfrom xto] rtype] xflag] xs IH]; intros ret; simpl.
  - by rewrite app_nil_r.
  - rewrite IH. destruct (Z.eqb_spec (Z.land xflag FAR_BRANCH_MASK) 0) as [E|E]; simpl.
    + rewrite decide_False by (rewrite <- far_branch_mask; tauto).
      by rewrite <- app_assoc.
    + by rewrite decide_True by (by apply far_branch_mask).
Qed.

Lemma get_previous_instructions_edges vw va :
  get_previous_instructions vw va
  = fallthrough_edge vw va ++ near_xref_sources vw va.
Proof.
  unfold get_previous_instructions, fallthrough_edge, near_xref_sources.
  rewrite xref_loop_app. f_equal.
  destruct (getPrevLocation vw va true) as [[[[pva sz] ptype] pinfo]|]; [|done].
  destruct (Z.eqb_spec ptype LOC_OP), (Z.eqb_spec (Z.land pinfo IF_NOFALL) 0);
    simpl; case_decide; naive_solver.
Qed.

Lemma elem_of_fallthrough_edge vw va a :
  a ∈ fallthrough_edge vw va ↔ falls_through_from vw va a.
Proof.
  unfold fallthrough_edge, falls_through_from.
  destruct (getPrevLocation vw va true) as [[[[pva sz] ptype] pinfo]|].
  - case_decide as Hd.
    + rewrite list_elem_of_singleton. destruct Hd as [-> Hd]. naive_solver.
    + rewrite elem_of_nil. naive_solver.
  - rewrite elem_of_nil. naive_solver.
Qed.

Lemma elem_of_near_xref_sources vw va a :
  a ∈ near_xref_sources vw va ↔ near_code_xref_from vw va a.
Proof.
  unfold near_xref_sources, near_code_xref_from. rewrite list_elem_of_omap. split.
  - intros ([[[xfrom xto] rtype] xflag] & Hin & Hx).
    case_decide; simplify_eq. eauto.
  - intros (xto & rtype & xflag & Hin & Hnear).
    exists (a, xto, rtype, xflag). split; [done|]. by rewrite decide_False.
Qed.

(** C5, as the code has it: an address is among the predecessors of [va]
    exactly when it flows into [va] by one of the two local edges: it is
    the location just before [va], a decoded instruction whose flags let
    it fall through, or it is the source of a code cross-reference to [va]
    that carries none of the far-branch flags.  So the location just
    before [va] is included exactly when it is a decoded instruction that
    falls through or is itself the source of such a code reference; the
    source of every code reference that is not a far branch is included;
    and an address that reaches [va] only through edges flagged
    process-crossing, pointer-dereferenced or architecture-crossing is
    never a predecessor. *)
Theorem get_previous_instructions_local_edges vw va :
  (∀ a, a ∈ get_previous_instructions vw va
        ↔ falls_through_from vw va a ∨ near_code_xref_from vw va a)
  ∧ (∀ pva sz ptype pinfo,
       getPrevLocation vw va true = Some (pva, sz, ptype, pinfo) →
       (pva ∈ get_previous_instructions vw va
        ↔ (ptype = LOC_OP ∧ Z.land pinfo IF_NOFALL = 0%Z)
          ∨ near_code_xref_from vw va pva))
  ∧ (∀ a xto rtype xflag,
       (a, xto, rtype, xflag) ∈ getXrefsTo vw va REF_CODE →
       ¬ far_branch xflag →
       a ∈ get_previous_instructions vw va)
  ∧ (∀ a, ¬ falls_through_from vw va a →
          (∀ xto rtype xflag,
             (a, xto, rtype, xflag) ∈ getXrefsTo vw va REF_CODE →
             far_branch xflag) →
          a ∉ get_previous_instructions vw va).
Proof.
  assert (Hiff : ∀ a, a ∈ get_previous_instructions vw va
        ↔ falls_through_from vw va a ∨ near_code_xref_from vw va a).
  { intros a. rewrite get_previous_instructions_edges, elem_of_app.
    by rewrite elem_of_fallthrough_edge, elem_of_near_xref_sources. }
  split; [done|]. split; [|split].
  - intros pva sz ptype pinfo Hloc. rewrite Hiff.
    unfold falls_through_from. rewrite Hloc. naive_solver.
  - intros a xto rtype xflag Hin Hnear. apply Hiff. right.
    unfold near_code_xref_from. eauto.
  - intros a Hfall Hfar [?|(xto & rtype & xflag & Hin & Hnear)]%Hiff; [done|].
    eauto.
Qed.

(** C9, as the code has it: the predecessors are a list with one entry per
    qualifying edge, the fallthrough edge first and then the near code
    references in the order the workspace gives them, so an address that
    flows into [va] by two edges is listed twice; the list is empty, and
    nothing is raised, exactly when no edge qualifies. *)
Theorem get_previous_instructions_one_per_edge vw va :
  get_previous_instructions vw va
  = fallthrough_edge vw va ++ near_xref_sources vw va
  ∧ (get_previous_instructions vw va = []
     ↔ (∀ a, ¬ falls_through_from vw va a) ∧ (∀ a, ¬ near_code_xref_from vw va a)).
Proof.
  split; [apply get_previous_instructions_edges|].
  rewrite get_previous_instructions_edges. split.
  - intros [E1 E2]%app_eq_nil. split; intros a.
    + rewrite <- elem_of_fallthrough_edge, E1. apply not_elem_of_nil.
    + rewrite <- elem_of_near_xref_sources, E2. apply not_elem_of_nil.
  - intros [H1 H2].
    assert (fallthrough_edge vw va = []) as ->.
    { apply elem_of_nil_inv. intros a. by rewrite elem_of_fallthrough_edge. }
    simpl. apply elem_of_nil_inv. intros a. by rewrite elem_of_near_xref_sources.
Qed.

(** ** The classifier *)

(** C7: [is_indirect_call] answers true exactly for a [call] whose first
    operand is a register operand; for a [call] whose first operand is an
    immediate or any memory form the answer is false, as it is for every
    other mnemonic.  Without [insn] the instruction is decoded at [va]
    first. *)
Theorem is_indirect_call_iff vw va insn :
  (is_indirect_call vw va (Some insn) = Ok true
   ↔ mnem insn = "call"%string ∧ ∃ r rest, opers insn = i386RegOper r :: rest)
  ∧ (∀ opnd0 rest, mnem insn = "call"%string → opers insn = opnd0 :: rest →
       (∀ r, opnd0 ≠ i386RegOper r) →
       is_indirect_call vw va (Some insn) = Ok false)
  ∧ (mnem insn ≠ "call"%string → is_indirect_call vw va (Some insn) = Ok false)
  ∧ (parseOpcode vw va = Some insn →
       is_indirect_call vw va None = is_indirect_call vw va (Some insn)).
Proof.
  unfold is_indirect_call, decode; simpl.
  split; [split|split; [|split]].
  - case_bool_decide as Hm; [|done].
    destruct (opers insn) as [|[]]; naive_solver.
  - intros [Hm (r & rest & ->)]. by rewrite bool_decide_true.
  - intros opnd0 rest Hm -> Hreg. rewrite bool_decide_true by done.
    destruct opnd0; naive_solver.
  - intros Hm. by rewrite bool_decide_false.
  - by intros ->.
Qed.

(** ** One iteration of the search *)

Lemma defines_iff reg insn :
  defines reg insn = true
  ↔ (∃ rest, opers insn = i386RegOper reg :: rest)
    ∧ mnem insn ∈ DESTRUCTIVE_MNEMONICS.
Proof.
  unfold defines, is_destructive. destruct (opers insn) as [|opnd0 rest].
  { naive_solver. }
  destruct opnd0 as [r| | | |]; try naive_solver.
  rewrite andb_true_iff, Z.eqb_eq, bool_decide_eq_true. naive_solver.
Qed.

Lemma loop_body_seen vw reg cur q seen :
  cur ∈ seen → loop_body vw reg cur q seen = Continue q seen.
Proof. intros. unfold loop_body. by rewrite decide_True. Qed.

Lemma loop_body_undecoded vw reg cur q seen :
  cur ∉ seen → parseOpcode vw cur = None →
  loop_body vw reg cur q seen = Leave (Raise ProviderError).
Proof. intros ? E. unfold loop_body, decode. by rewrite decide_False, E. Qed.

Lemma loop_body_skip vw reg cur q seen insn :
  cur ∉ seen → parseOpcode vw cur = Some insn → defines reg insn = false →
  loop_body vw reg cur q seen
  = Continue (q ++ get_previous_instructions vw cur) ({[cur]} ∪ seen).
Proof.
  intros ? E Hd. unfold loop_body, decode. rewrite decide_False, E by done.
  unfold defines in Hd. destruct (opers insn); [done|]. by rewrite Hd.
Qed.

Lemma loop_body_define vw reg cur q seen insn :
  cur ∉ seen → parseOpcode vw cur = Some insn → defines reg insn = true →
  loop_body vw reg cur q seen = Leave (extract_constant cur insn).
Proof.
  intros ? E Hd. unfold loop_body, decode. rewrite decide_False, E by done.
  unfold defines in Hd. destruct (opers insn); [done|]. by rewrite Hd.
Qed.

(** The extraction step raises nothing but IndexError, and when it returns
    the address is the one it was given. *)
Lemma extract_constant_cases cur insn :
  extract_constant cur insn = Raise IndexError
  ∨ ∃ value, extract_constant cur insn = Ok (cur, value).
Proof.
  unfold extract_constant. case_bool_decide; [eauto|].
  destruct (opers insn !! 1) as [[]|]; eauto.
Qed.

(** A constant comes out of a [mov] whose second operand is one of the
    three recognised shapes, and out of nothing else. *)
Lemma extract_constant_Some cur insn addr (v : Z) :
  extract_constant cur insn = Ok (addr, Some v) →
  mnem insn = "mov"%string
  ∧ ((∃ imm, opers insn !! 1 = Some (i386ImmOper imm))
     ∨ (∃ imm, opers insn !! 1 = Some (i386ImmMemOper imm))
     ∨ (∃ imm, opers insn !! 1 = Some (Amd64RipRelOper imm))).
Proof.
  unfold extract_constant. case_bool_decide as Hm; [done|].
  destruct (opers insn !! 1) as [[]|]; naive_solver.
Qed.

(** C1: when the search dequeues an unvisited [cur] whose instruction has
    the target register as first operand and a mnemonic among mov, lea,
    pop and xor, it returns there.  For a mnemonic other than mov the pair
    is [(cur, None)].  For mov the second operand decides: an immediate
    gives its literal value, an immediate memory operand the address it
    names, a RIP-relative operand the address after the instruction plus
    the displacement, and any other operand gives [None]. *)
Theorem find_definition_returned_pair fuel vw reg cur q seen insn rest :
  cur ∉ seen →
  parseOpcode vw cur = Some insn →
  opers insn = i386RegOper reg :: rest →
  mnem insn ∈ DESTRUCTIVE_MNEMONICS →
  (mnem insn ≠ "mov"%string →
     find_definition_loop (S fuel) vw reg (cur :: q) seen = Some (Ok (cur, None)))
  ∧ (mnem insn = "mov"%string → ∀ opnd1 rest', rest = opnd1 :: rest' →
     find_definition_loop (S fuel) vw reg (cur :: q) seen
     = Some (Ok (cur, match opnd1 with
                      | i386ImmOper value => Some value
                      | i386ImmMemOper address => Some address
                      | Amd64RipRelOper displacement =>
                          Some (op_va insn + op_size insn + displacement)%Z
                      | i386RegOper _ | OtherOper => None
                      end))).
Proof.
  intros Hseen Hdec Hops Hm. simpl.
  rewrite (loop_body_define _ _ _ _ _ insn) by (rewrite ?defines_iff; eauto).
  unfold extract_constant. split.
  - intros Hne. by rewrite bool_decide_true.
  - intros Hmov opnd1 rest' ->. rewrite bool_decide_false by tauto.
    rewrite Hops. simpl. by destruct opnd1.
Qed.

(** C2: an unvisited [cur] that the search dequeues ends the search exactly
    when its first operand is the target register and its mnemonic is among
    mov, lea, pop and xor.  Every other instruction (no operands, another
    first operand, another mnemonic such as add) is passed over: [cur] is
    marked visited, its predecessors go to the back of the queue and the
    search goes on from there. *)
Theorem loop_body_boundary_iff fuel vw reg cur q seen insn :
  cur ∉ seen →
  parseOpcode vw cur = Some insn →
  ((∃ r, loop_body vw reg cur q seen = Leave r)
   ↔ (∃ rest, opers insn = i386RegOper reg :: rest)
     ∧ mnem insn ∈ DESTRUCTIVE_MNEMONICS)
  ∧ (¬ ((∃ rest, opers insn = i386RegOper reg :: rest)
        ∧ mnem insn ∈ DESTRUCTIVE_MNEMONICS) →
     loop_body vw reg cur q seen
     = Continue (q ++ get_previous_instructions vw cur) ({[cur]} ∪ seen)
     ∧ find_definition_loop (S fuel) vw reg (cur :: q) seen
       = find_definition_loop fuel vw reg
           (q ++ get_previous_instructions vw cur) ({[cur]} ∪ seen))
  ∧ (opers insn = [] ∨ mnem insn = "add"%string →
     loop_body vw reg cur q seen
     = Continue (q ++ get_previous_instructions vw cur) ({[cur]} ∪ seen)).
Proof.
  intros Hseen Hdec. rewrite <- defines_iff.
  destruct (defines reg insn) eqn:Hd.
  - rewrite (loop_body_define _ _ _ _ _ insn) by done.
    split; [naive_solver|]. split; [naive_solver|].
    apply defines_iff in Hd as [[rest Hops] Hm].
    intros [E|E]; [congruence|]. rewrite E in Hm.
    by apply (bool_decide_pack _) in Hm.
  - assert (Hskip := loop_body_skip vw reg cur q seen insn Hseen Hdec Hd).
    split; [rewrite Hskip; naive_solver|]. split; [|done].
    intros _. split; [done|]. simpl. by rewrite Hskip.
Qed.

(** C8: the extraction step raises on no operand shape.  For every
    instruction accepted as a destructive write, as a decoder yields it (a
    [mov] comes with its second operand), whatever the shapes of its
    operands, the step returns the definition address paired with a
    value, [None] for every shape of the second operand it does not
    recognise. *)
Theorem extract_constant_never_raises vw reg cur q seen insn :
  cur ∉ seen →
  parseOpcode vw cur = Some insn →
  defines reg insn = true →
  (mnem insn = "mov"%string → is_Some (opers insn !! 1)) →
  ∃ value, extract_constant cur insn = Ok (cur, value)
           ∧ loop_body vw reg cur q seen = Leave (Ok (cur, value))
           ∧ (value = None
              ∨ (∃ imm, opers insn !! 1 = Some (i386ImmOper imm))
              ∨ (∃ imm, opers insn !! 1 = Some (i386ImmMemOper imm))
              ∨ (∃ imm, opers insn !! 1 = Some (Amd64RipRelOper imm))).
Proof.
  intros Hseen Hdec Hd H2.
  rewrite (loop_body_define _ _ _ _ _ insn) by done.
  destruct (extract_constant_cases cur insn) as [E|[value E]].
  - exfalso. unfold extract_constant in E. case_bool_decide as Hm; [done|].
    destruct (H2 Hm) as [o Ho]. rewrite Ho in E.
    by destruct o.
  - exists value. rewrite E. split; [done|]. split; [done|].
    destruct value as [v|]; [right|by left].
    by apply extract_constant_Some in E as [_ ?].
Qed.

(** ** The whole search *)

(** A search that returns a pair left the loop at an instruction that
    decodes and defines the register. *)
Lemma find_definition_loop_Ok fuel vw reg q seen addr value :
  find_definition_loop fuel vw reg q seen = Some (Ok (addr, value)) →
  ∃ insn, parseOpcode vw addr = Some insn
          ∧ defines reg insn = true
          ∧ extract_constant addr insn = Ok (addr, value).
Proof.
  revert q seen. induction fuel as [|fuel IH]; intros q seen; [done|].
  simpl. destruct q as [|cur q]; [done|].
  destruct (decide (cur ∈ seen)) as [Hin|Hin].
  { rewrite loop_body_seen by done. apply IH. }
  destruct (parseOpcode vw cur) as [insn|] eqn:Hdec.
  - destruct (defines reg insn) eqn:Hd.
    + rewrite (loop_body_define _ _ _ _ _ insn) by done. intros [= E].
      destruct (extract_constant_cases cur insn) as [E'|[v E']];
        rewrite E' in E; simplify_eq.
      eauto.
    + rewrite (loop_body_skip _ _ _ _ _ insn) by done. apply IH.
  - by rewrite loop_body_undecoded.
Qed.

(** C10: when [find_definition] returns [(addr, value)], the instruction at
    [addr] has the target register as first operand and a mnemonic among
    mov, lea, pop and xor; and when [value] is not [None], the mnemonic is
    mov and the second operand is an immediate, an immediate memory or a
    RIP-relative operand. *)
Theorem find_definition_result_invariant fuel vw va reg addr value :
  find_definition fuel vw va reg = Some (Ok (addr, value)) →
  ∃ insn, parseOpcode vw addr = Some insn
    ∧ (∃ rest, opers insn = i386RegOper reg :: rest)
    ∧ mnem insn ∈ DESTRUCTIVE_MNEMONICS
    ∧ (value ≠ None →
       mnem insn = "mov"%string
       ∧ ((∃ imm, opers insn !! 1 = Some (i386ImmOper imm))
          ∨ (∃ imm, opers insn !! 1 = Some (i386ImmMemOper imm))
          ∨ (∃ imm, opers insn !! 1 = Some (Amd64RipRelOper imm)))).
Proof.
  intros (insn & Hdec & [Hops Hm]%defines_iff & Hex)%find_definition_loop_Ok.
  exists insn. repeat (split; [done|]).
  destruct value as [v|]; [intros _|done].
  by apply extract_constant_Some in Hex.
Qed.

(** *** Termination *)

Lemma edges_into_remove vw X a :
  a ∈ X →
  edges_into vw X
  = length (get_previous_instructions vw a) + edges_into vw (X ∖ {[a]}).
Proof.
  intros Ha. unfold edges_into.
  rewrite (union_difference_singleton_L a X) at 1 by done.
  rewrite elements_union_singleton by set_solver. done.
Qed.

(** Every iteration lowers the length of the queue plus the number of
    edges that leave the unvisited addresses. *)
Lemma find_definition_loop_terminates vw reg X fuel :
  set_Forall (fun a => Forall (fun b => b ∈ X) (get_previous_instructions vw a)) X →
  ∀ q seen,
    Forall (fun b => b ∈ X) q →
    length q + edges_into vw (X ∖ seen) < fuel →
    is_Some (find_definition_loop fuel vw reg q seen).
Proof.
  intros Hclosed. induction fuel as [|fuel IH]; intros q seen Hq Hfuel; [lia|].
  simpl. destruct q as [|cur q]; [by eexists|].
  apply Forall_cons in Hq as [Hcur Hq]. simpl in Hfuel.
  destruct (decide (cur ∈ seen)) as [Hin|Hin].
  { rewrite loop_body_seen by done. apply IH; [done|lia]. }
  destruct (loop_body vw reg cur q seen) as [q' seen'|r] eqn:Hbody; [|by eexists].
  assert (q' = q ++ get_previous_instructions vw cur ∧ seen' = {[cur]} ∪ seen)
    as [-> ->].
  { unfold loop_body in Hbody. rewrite decide_False in Hbody by done.
    destruct (decode vw cur); [|done].
    destruct (opers _); [naive_solver|]. destruct (negb _); naive_solver. }
  apply IH.
  - apply Forall_app. split; [done|]. by apply Hclosed.
  - rewrite length_app.
    rewrite (edges_into_remove vw (X ∖ seen) cur) in Hfuel by set_solver.
    replace (X ∖ ({[cur]} ∪ seen)) with (X ∖ seen ∖ {[cur]}) by set_solver.
    lia.
Qed.

(** More fuel does not change a result. *)
Lemma find_definition_loop_mono vw reg fuel fuel' q seen r :
  find_definition_loop fuel vw reg q seen = Some r →
  fuel ≤ fuel' →
  find_definition_loop fuel' vw reg q seen = Some r.
Proof.
  revert fuel' q seen. induction fuel as [|fuel IH]; intros fuel' q seen; [done|].
  intros Hr Hle. destruct fuel' as [|fuel']; [lia|]. simpl in *.
  destruct q as [|cur q]; [done|].
  destruct (loop_body vw reg cur q seen); [|done].
  apply IH; [done|lia].
Qed.

(** *** Each address once *)

Lemma processed_fresh vw reg fuel q seen a :
  a ∈ processed fuel vw reg q seen → a ∉ seen.
Proof.
  revert q seen. induction fuel as [|fuel IH]; intros q seen; simpl.
  { by intros ?%elem_of_nil. }
  destruct q as [|cur q]; [by intros ?%elem_of_nil|].
  destruct (decide (cur ∈ seen)) as [Hin|Hin]; simpl.
  { rewrite loop_body_seen by done. apply IH. }
  intros [->|Ha]%elem_of_cons; [done|].
  destruct (loop_body vw reg cur q seen) as [q' seen'|r] eqn:Hbody;
    [|by apply elem_of_nil in Ha].
  apply IH in Ha.
  unfold loop_body in Hbody. rewrite decide_False in Hbody by done.
  destruct (decode vw cur); [|done].
  destruct (opers _); [|destruct (negb _)]; simplify_eq; set_solver.
Qed.

Lemma processed_NoDup vw reg fuel q seen :
  NoDup (processed fuel vw reg q seen).
Proof.
  revert q seen. induction fuel as [|fuel IH]; intros q seen; simpl.
  { constructor. }
  destruct q as [|cur q]; [constructor|].
  destruct (decide (cur ∈ seen)) as [Hin|Hin]; simpl.
  { rewrite loop_body_seen by done. apply IH. }
  destruct (loop_body vw reg cur q seen) as [q' seen'|r] eqn:Hbody.
  - constructor; [|apply IH]. intros Ha%processed_fresh.
    unfold loop_body in Hbody. rewrite decide_False in Hbody by done.
    destruct (decode vw cur); [|done].
    destruct (opers _); [|destruct (negb _)]; simplify_eq; set_solver.
  - constructor; [apply not_elem_of_nil|constructor].
Qed.

(** C3: on a finite control-flow graph, with whatever cycles, the search
    ends: from [search_bound] iterations on it gives one and the same
    result.  And whatever the graph and however long the search runs, no
    address is decoded twice, because an address in the visited set is
    dropped when it is dequeued. *)
Theorem find_definition_terminates vw va reg X :
  closed_under_predecessors vw va X →
  (∃ r, ∀ fuel, search_bound vw va X ≤ fuel →
        find_definition fuel vw va reg = Some r)
  ∧ (∀ fuel, NoDup (processed fuel vw reg (get_previous_instructions vw va) ∅))
  ∧ (∀ fuel cur q seen, cur ∈ seen →
       find_definition_loop (S fuel) vw reg (cur :: q) seen
       = find_definition_loop fuel vw reg q seen
       ∧ processed (S fuel) vw reg (cur :: q) seen = processed fuel vw reg q seen).
Proof.
  intros [Hva Hclosed]. split; [|split].
  - destruct (find_definition_loop_terminates vw reg X (search_bound vw va X)
                Hclosed (get_previous_instructions vw va) ∅) as [r Hr]; [done|..].
    { unfold search_bound. replace (X ∖ ∅) with X by set_solver. lia. }
    exists r. intros fuel Hle. by apply (find_definition_loop_mono _ _ _ _ _ _ _ Hr).
  - intros fuel. apply processed_NoDup.
  - intros fuel cur q seen Hin. simpl.
    rewrite loop_body_seen, decide_True by done. done.
Qed.

(** *** Not found *)

Lemma extract_constant_found cur insn :
  extract_constant cur insn ≠ Raise NotFoundError.
Proof. by destruct (extract_constant_cases cur insn) as [->|[v ->]]. Qed.

(** When the queue runs dry, the visited set has grown into a set that
    holds the queue, is closed under predecessors from the new members on,
    and whose new members were all decoded and passed over. *)
Lemma find_definition_loop_exhausted vw reg fuel q seen :
  find_definition_loop fuel vw reg q seen = Some (Raise NotFoundError) →
  ∃ seen', seen ⊆ seen'
    ∧ (∀ a, a ∈ q → a ∈ seen')
    ∧ (∀ a, a ∈ seen' → a ∉ seen →
         skipped_at vw reg a
         ∧ ∀ b, b ∈ get_previous_instructions vw a → b ∈ seen').
Proof.
  revert q seen. induction fuel as [|fuel IH]; intros q seen; [done|].
  simpl. destruct q as [|cur q].
  { intros _. exists seen. set_solver. }
  destruct (decide (cur ∈ seen)) as [Hin|Hin].
  { rewrite loop_body_seen by done. intros (seen' & ? & ? & ?)%IH.
    exists seen'. set_solver. }
  destruct (parseOpcode vw cur) as [insn|] eqn:Hdec;
    [|by rewrite loop_body_undecoded].
  destruct (defines reg insn) eqn:Hd.
  { rewrite (loop_body_define _ _ _ _ _ insn) by done.
    intros [= E]. by apply extract_constant_found in E. }
  rewrite (loop_body_skip _ _ _ _ _ insn) by done.
  intros (seen' & Hsub & Hq & Hnew)%IH. exists seen'.
  split; [set_solver|]. split.
  { intros a [->|Ha]%elem_of_cons; [set_solver|]. apply Hq. set_solver. }
  intros a Ha Hfresh. destruct (decide (a = cur)) as [->|Hne].
  - split; [by exists insn|]. intros b Hb. apply Hq. set_solver.
  - apply Hnew; set_solver.
Qed.

(** A search that ends some other way met an address, reachable from the
    queue, that was not passed over. *)
Lemma find_definition_loop_stopped vw reg (P : Z → Prop) fuel q seen r :
  (∀ a b, P a → b ∈ get_previous_instructions vw a → P b) →
  (∀ a, a ∈ q → P a) →
  find_definition_loop fuel vw reg q seen = Some r →
  r = Raise NotFoundError ∨ ∃ a, P a ∧ ¬ skipped_at vw reg a.
Proof.
  intros HP. revert q seen. induction fuel as [|fuel IH]; intros q seen Hq; [done|].
  simpl. destruct q as [|cur q]; [naive_solver|].
  assert (P cur) by (apply Hq; set_solver).
  assert (∀ a, a ∈ q → P a) by (intros; apply Hq; set_solver).
  destruct (decide (cur ∈ seen)) as [Hin|Hin].
  { rewrite loop_body_seen by done. by apply IH. }
  destruct (parseOpcode vw cur) as [insn|] eqn:Hdec.
  - destruct (defines reg insn) eqn:Hd.
    + intros _. right. exists cur. split; [done|].
      intros (insn' & ? & ?). congruence.
    + rewrite (loop_body_skip _ _ _ _ _ insn) by done. apply IH.
      intros a [?|?]%elem_of_app; eauto.
  - intros _. right. exists cur. split; [done|].
    intros (insn' & ? & ?). congruence.
Qed.

(** The register operand a passed assertion guarantees (line 154). *)
Lemma resolve_indirect_call_delegates fuel vw va reg insn rest :
  mnem insn = "call"%string →
  opers insn = i386RegOper reg :: rest →
  resolve_indirect_call fuel vw va (Some insn) = find_definition fuel vw va reg.
Proof.
  intros Hm Hops. unfold resolve_indirect_call, is_indirect_call; simpl.
  destruct __debug__; simpl; [rewrite bool_decide_true by done|];
    by rewrite Hops.
Qed.

(** C4: on a finite control-flow graph and with fuel for the whole of it,
    [find_definition] raises NotFoundError exactly when every address that
    reaches [va] backward, in one step or more, decodes to an instruction
    that is not a destructive write to the register: the worklist runs dry
    with nothing found, at once when [va] has no predecessor at all.
    [resolve_indirect_call] on an indirect call
    through [reg] is [find_definition] for [reg], so the failure reaches
    its caller as it is. *)
Theorem find_definition_not_found_iff fuel vw va reg X :
  closed_under_predecessors vw va X →
  search_bound vw va X ≤ fuel →
  (find_definition fuel vw va reg = Some (Raise NotFoundError)
   ↔ ∀ a, backward_reachable vw va a → skipped_at vw reg a)
  ∧ (get_previous_instructions vw va = [] →
     find_definition fuel vw va reg = Some (Raise NotFoundError))
  ∧ (∀ insn rest,
       parseOpcode vw va = Some insn →
       mnem insn = "call"%string →
       opers insn = i386RegOper reg :: rest →
       resolve_indirect_call fuel vw va None = find_definition fuel vw va reg
       ∧ (find_definition fuel vw va reg = Some (Raise NotFoundError) →
          resolve_indirect_call fuel vw va None = Some (Raise NotFoundError))).
Proof.
  intros Hfin Hfuel. split; [split|split].
  - intros (seen' & _ & Hq & Hnew)%find_definition_loop_exhausted.
    assert (∀ a, backward_reachable vw va a → a ∈ seen') as Hreach.
    { apply tc_ind_r; [done|]. intros a b _ Hb Ha.
      by apply (Hnew a Ha (not_elem_of_empty a)). }
    intros a Ha%Hreach. by apply (Hnew a Ha (not_elem_of_empty a)).
  - intros Hskip.
    destruct (find_definition_loop_terminates vw reg X fuel (proj2 Hfin)
                (get_previous_instructions vw va) ∅) as [r Hr].
    { apply (proj1 Hfin). }
    { unfold search_bound in Hfuel. replace (X ∖ ∅) with X by set_solver. lia. }
    unfold find_definition. rewrite Hr.
    apply (find_definition_loop_stopped vw reg (backward_reachable vw va))
      in Hr as [->|(a & Ha & Hno)]; [done|..].
    + destruct Hno. by apply Hskip.
    + intros a b Ha Hb. by eapply tc_r.
    + intros a Ha. by apply tc_once.
  - intros Hentry. unfold find_definition. rewrite Hentry.
    destruct fuel; [|done]. unfold search_bound in Hfuel. lia.
  - intros insn rest Hdec Hm Hops.
    assert (resolve_indirect_call fuel vw va None
            = find_definition fuel vw va reg) as ->; [|done].
    rewrite <- (resolve_indirect_call_delegates fuel vw va reg insn rest) by done.
    unfold resolve_indirect_call, decode. by rewrite Hdec.
Qed.

(** *** First come, first served *)

(** The search walks the FIFO order as long as it passes instructions
    over, and leaves at the first one that defines the register. *)
Lemma find_definition_loop_follows_bfs vw reg fuel q seen order pre a post insn :
  bfs_order fuel vw q seen = Some order →
  order = pre ++ a :: post →
  (∀ b, b ∈ pre → skipped_at vw reg b) →
  parseOpcode vw a = Some insn →
  defines reg insn = true →
  find_definition_loop fuel vw reg q seen = Some (extract_constant a insn).
Proof.
  intros Horder Hsplit Hpre Hdec Hd.
  revert q seen order pre Horder Hsplit Hpre.
  induction fuel as [|fuel IH]; intros q seen order pre; [done|].
  simpl. destruct q as [|cur q].
  { intros [= <-]. by destruct pre. }
  destruct (decide (cur ∈ seen)) as [Hin|Hin].
  { rewrite loop_body_seen by done. apply IH. }
  destruct (bfs_order fuel vw _ _) as [order'|] eqn:Horder'; [|done].
  simpl. intros [= <-] Hsplit Hpre. destruct pre as [|b pre]; simplify_eq/=.
  - by rewrite (loop_body_define _ _ _ _ _ insn).
  - destruct (Hpre b) as (insn' & Hdec' & Hd'); [set_solver|].
    rewrite (loop_body_skip _ _ _ _ _ insn') by done.
    eapply IH; [done..|]. intros; apply Hpre; set_solver.
Qed.

(** C6: let [order] be the FIFO order in which the predecessors of [va]
    are reached, and [a] the first address in it whose instruction is a
    destructive write to the register, every address before it being
    decoded and passed over.  Then [find_definition] gives what the
    extraction step reads off the instruction at [a] alone: one pair
    [(a, value)], and no error, for every instruction but a [mov] left
    without its second operand.  What the addresses after [a] in the order
    hold, among them other definitions of the register on other paths, has
    no part in it. *)
Theorem find_definition_first_in_fifo_order fuel vw va reg order pre a post insn :
  bfs_order fuel vw (get_previous_instructions vw va) ∅ = Some order →
  order = pre ++ a :: post →
  (∀ b, b ∈ pre → skipped_at vw reg b) →
  parseOpcode vw a = Some insn →
  defines reg insn = true →
  find_definition fuel vw va reg = Some (extract_constant a insn)
  ∧ ((mnem insn = "mov"%string → is_Some (opers insn !! 1)) →
     ∃ value, find_definition fuel vw va reg = Some (Ok (a, value))).
Proof.
  intros Horder Hsplit Hpre Hdec Hd.
  unfold find_definition.
  rewrite (find_definition_loop_follows_bfs vw reg fuel _ _ order pre a post insn)
    by done.
  split; [done|]. intros H2.
  destruct (extract_constant_cases a insn) as [E|[value E]];
    [|exists value; by rewrite E].
  exfalso. unfold extract_constant in E. case_bool_decide as Hm; [done|].
  destruct (H2 Hm) as [o Ho]. rewrite Ho in E. by destruct o.
Qed.

(** ** Further properties of the search *)

(** *** Where the search stops *)

(** The ways out of the loop other than exhaustion: at an address the
    invariant [P] holds of, which does not decode or which defines the
    register. *)
Lemma find_definition_loop_leaves vw reg (P : Z → Prop) fuel q seen r :
  (∀ a b, P a → skipped_at vw reg a → b ∈ get_previous_instructions vw a → P b) →
  (∀ a, a ∈ q → P a) →
  find_definition_loop fuel vw reg q seen = Some r →
  r = Raise NotFoundError
  ∨ ∃ cur, P cur
      ∧ ((parseOpcode vw cur = None ∧ r = Raise ProviderError)
         ∨ (∃ insn, parseOpcode vw cur = Some insn
                    ∧ defines reg insn = true
                    ∧ r = extract_constant cur insn)).
Proof.
  intros HP. revert q seen. induction fuel as [|fuel IH]; intros q seen Hq; [done|].
  simpl. destruct q as [|cur q]; [naive_solver|].
  assert (P cur) by (apply Hq; set_solver).
  assert (∀ a, a ∈ q → P a) by (intros; apply Hq; set_solver).
  destruct (decide (cur ∈ seen)) as [Hin|Hin].
  { rewrite loop_body_seen by done. by apply IH. }
  destruct (parseOpcode vw cur) as [insn|] eqn:Hdec.
  - destruct (defines reg insn) eqn:Hd.
    + rewrite (loop_body_define _ _ _ _ _ insn) by done.
      intros [= <-]. right. exists cur. split; [done|]. right. by exists insn.
    + rewrite (loop_body_skip _ _ _ _ _ insn) by done. apply IH.
      intros a [?|?]%elem_of_app; [auto|]. apply (HP cur); [done| |done].
      by exists insn.
  - rewrite loop_body_undecoded by done.
    intros [= <-]. right. exists cur. split; [done|]. by left.
Qed.

Lemma clear_path_reachable vw reg va a :
  clear_path vw reg va a → backward_reachable vw va a.
Proof.
  induction 1 as [a Ha|b a _ IH _ Ha]; [by apply tc_once|].
  by eapply tc_r.
Qed.

(** The extraction step raises only at a [mov] whose operand list ends
    after the first operand. *)
Lemma extract_constant_Raise cur insn e :
  extract_constant cur insn = Raise e →
  e = IndexError ∧ mnem insn = "mov"%string ∧ opers insn !! 1 = None.
Proof.
  unfold extract_constant. case_bool_decide as Hm; [done|].
  destruct (opers insn !! 1) as [[]|]; naive_solver.
Qed.

Lemma extract_constant_Ok cur insn addr value :
  extract_constant cur insn = Ok (addr, value) → addr = cur.
Proof.
  destruct (extract_constant_cases cur insn) as [->|[v ->]]; naive_solver.
Qed.

(** X1: the address [find_definition] returns reaches [va] along a
    backward path on which every instruction ahead of it was decoded and is
    no destructive write to the register: the search never looks past a
    definition of the register to find another. *)
Theorem find_definition_clear_path fuel vw va reg addr value :
  find_definition fuel vw va reg = Some (Ok (addr, value)) →
  clear_path vw reg va addr ∧ backward_reachable vw va addr.
Proof.
  intros Hr.
  apply (find_definition_loop_leaves vw reg (clear_path vw reg va)) in Hr
    as [?|(cur & Hcur & [[_ ?]|(insn & _ & _ & Hex)])]; try done.
  - symmetry in Hex. apply extract_constant_Ok in Hex as ->.
    split; [done|]. by eapply clear_path_reachable.
  - intros a b Ha Hs Hb. by eapply clear_path_next.
  - intros a Ha. by apply clear_path_first.
Qed.

(** X2: the exceptions of [find_definition].  It raises NotFoundError, or
    the provider's error at an address reached by a clear path that does
    not decode, or IndexError at a [mov] reached by a clear path whose only
    operand is the target register; it raises nothing else. *)
Theorem find_definition_raises fuel vw va reg e :
  find_definition fuel vw va reg = Some (Raise e) →
  e = NotFoundError
  ∨ (e = ProviderError
     ∧ ∃ a, clear_path vw reg va a ∧ parseOpcode vw a = None)
  ∨ (e = IndexError
     ∧ ∃ a insn, clear_path vw reg va a
         ∧ parseOpcode vw a = Some insn
         ∧ mnem insn = "mov"%string
         ∧ opers insn = [i386RegOper reg]).
Proof.
  intros Hr.
  apply (find_definition_loop_leaves vw reg (clear_path vw reg va)) in Hr
    as [?|(cur & Hcur & [[Hdec ?]|(insn & Hdec & Hd & Hex)])].
  - left. congruence.
  - right. left. split; [congruence|]. eauto.
  - right. right. symmetry in Hex.
    apply extract_constant_Raise in Hex as (-> & Hm & H1).
    split; [done|]. exists cur, insn. repeat (split; [done|]).
    apply defines_iff in Hd as [[rest Hops] _]. rewrite Hops in H1 |- *.
    by destruct rest.
  - intros a b Ha Hs Hb. by eapply clear_path_next.
  - intros a Ha. by apply clear_path_first.
Qed.

(** *** The search as a scan of the traversal order *)

Lemma find_definition_loop_scan vw reg fuel q seen order :
  bfs_order fuel vw q seen = Some order →
  find_definition_loop fuel vw reg q seen = Some (scan vw reg order).
Proof.
  revert q seen order. induction fuel as [|fuel IH]; intros q seen order; [done|].
  simpl. destruct q as [|cur q]; [by intros [= <-]|].
  destruct (decide (cur ∈ seen)) as [Hin|Hin].
  { rewrite loop_body_seen by done. apply IH. }
  destruct (bfs_order fuel vw _ _) as [order'|] eqn:Horder'; [|done].
  simpl. intros [= <-]. simpl.
  destruct (parseOpcode vw cur) as [insn|] eqn:Hdec.
  - destruct (defines reg insn) eqn:Hd.
    + by rewrite (loop_body_define _ _ _ _ _ insn).
    + rewrite (loop_body_skip _ _ _ _ _ insn) by done. by apply IH.
  - by rewrite loop_body_undecoded.
Qed.

(** X3: with fuel for the whole traversal, [find_definition] is a scan of
    the FIFO order of the predecessors: its outcome is what the first
    address of that order that does not decode, or that writes the
    register destructively, gives, and NotFoundError when the order has no
    such address. *)
Theorem find_definition_scans_fifo_order fuel vw va reg order :
  bfs_order fuel vw (get_previous_instructions vw va) ∅ = Some order →
  find_definition fuel vw va reg = Some (scan vw reg order).
Proof. apply find_definition_loop_scan. Qed.

(** X4: a destructive write to the register in the instruction that falls
    through into [va] settles the search in its first iteration, whatever
    the code references into [va] and the rest of the workspace hold. *)
Theorem find_definition_fallthrough_first fuel vw va reg pva sz pinfo insn :
  getPrevLocation vw va true = Some (pva, sz, LOC_OP, pinfo) →
  Z.land pinfo IF_NOFALL = 0%Z →
  parseOpcode vw pva = Some insn →
  defines reg insn = true →
  find_definition (S fuel) vw va reg = Some (extract_constant pva insn).
Proof.
  intros Hloc Hfall Hdec Hd. unfold find_definition.
  rewrite get_previous_instructions_edges. unfold fallthrough_edge.
  rewrite Hloc, decide_True by done. simpl.
  by rewrite (loop_body_define _ _ _ _ _ insn) by (done || set_solver).
Qed.

(** *** Nearest definition *)

Lemma level_invariant_init vw reg va :
  level_invariant vw reg va 1 (get_previous_instructions vw va) [] ∅.
Proof.
  split_and!.
  - lia.
  - intros a Ha. by apply nsteps_once.
  - by intros a ?%elem_of_nil.
  - by intros a ?%not_elem_of_empty.
  - intros j a Hj. lia.
  - intros a Ha%nsteps_once_inv. by right.
  - by intros a b ?%not_elem_of_empty.
Qed.

Lemma level_invariant_next vw reg va k q2 seen :
  level_invariant vw reg va k [] q2 seen →
  level_invariant vw reg va (S k) q2 [] seen.
Proof.
  intros (Hk & H1 & H2 & Hs & Hlt & Hk' & Hpred). split_and!.
  - lia.
  - done.
  - by intros a ?%elem_of_nil.
  - done.
  - intros j a Hj Ha. destruct (decide (j = k)) as [->|].
    + destruct (Hk' a Ha) as [?|?%elem_of_nil]; done.
    + apply (Hlt j); [lia|done].
  - intros b (a & Ha & Hb)%nsteps_inv_r.
    destruct (Hk' a Ha) as [Hin|?%elem_of_nil]; [|done].
    destruct (Hpred a b Hin Hb) as [?|[?%elem_of_nil|?]]; by auto.
  - intros a b Ha Hb.
    destruct (Hpred a b Ha Hb) as [?|[?%elem_of_nil|?]]; by auto.
Qed.

Lemma level_invariant_seen vw reg va k cur q1 q2 seen :
  level_invariant vw reg va k (cur :: q1) q2 seen →
  cur ∈ seen →
  level_invariant vw reg va k q1 q2 seen.
Proof.
  intros (Hk & H1 & H2 & Hs & Hlt & Hk' & Hpred) Hin. split_and!; try done.
  - intros a Ha. apply H1. set_solver.
  - intros a Ha. destruct (Hk' a Ha) as [?|[->|?]%elem_of_cons]; auto.
  - intros a b Ha Hb.
    destruct (Hpred a b Ha Hb) as [?|[[->|?]%elem_of_cons|?]]; auto.
Qed.

Lemma level_invariant_skip vw reg va k cur q1 q2 seen :
  level_invariant vw reg va k (cur :: q1) q2 seen →
  skipped_at vw reg cur →
  level_invariant vw reg va k q1 (q2 ++ get_previous_instructions vw cur)
    ({[cur]} ∪ seen).
Proof.
  intros (Hk & H1 & H2 & Hs & Hlt & Hk' & Hpred) Hskip. split_and!; try done.
  - intros a Ha. apply H1. set_solver.
  - intros a [Ha|Ha]%elem_of_app; [by apply H2|].
    apply nsteps_r with cur; [|done]. apply H1. apply list_elem_of_here.
  - intros a [->%elem_of_singleton|Ha]%elem_of_union; auto.
  - intros j a Hj Ha. apply elem_of_union_r. by apply (Hlt j).
  - intros a Ha. destruct (Hk' a Ha) as [?|[->|?]%elem_of_cons];
      [left|left|right]; set_solver.
  - intros a b [->%elem_of_singleton|Ha]%elem_of_union Hb.
    + right. right. set_solver.
    + destruct (Hpred a b Ha Hb) as [?|[[->|?]%elem_of_cons|?]];
        [left|left|right;left|right;right]; set_solver.
Qed.

(** The head of a non-empty queue can be taken to stand in [q1]. *)
Lemma level_invariant_head vw reg va k q1 q2 seen cur q :
  level_invariant vw reg va k q1 q2 seen →
  q1 ++ q2 = cur :: q →
  ∃ k' q1' q2', q = q1' ++ q2'
                ∧ level_invariant vw reg va k' (cur :: q1') q2' seen.
Proof.
  intros Hinv Hq. destruct q1 as [|c q1]; simpl in Hq.
  - subst q2. exists (S k), q, []. split; [by rewrite app_nil_r|].
    by apply level_invariant_next.
  - simplify_eq. by exists k, q1, q2.
Qed.

Lemma find_definition_loop_nearest vw reg va fuel k q1 q2 seen r :
  level_invariant vw reg va k q1 q2 seen →
  find_definition_loop fuel vw reg (q1 ++ q2) seen = Some r →
  r = Raise NotFoundError
  ∨ ∃ cur n, (0 < n)%nat
      ∧ nsteps (predecessor vw) n va cur
      ∧ (∀ j b, (0 < j < n)%nat → nsteps (predecessor vw) j va b →
                skipped_at vw reg b)
      ∧ ((parseOpcode vw cur = None ∧ r = Raise ProviderError)
         ∨ (∃ insn, parseOpcode vw cur = Some insn
                    ∧ defines reg insn = true
                    ∧ r = extract_constant cur insn)).
Proof.
  revert k q1 q2 seen. induction fuel as [|fuel IH]; intros k q1 q2 seen Hinv; [done|].
  simpl. destruct (q1 ++ q2) as [|cur q] eqn:Hq; [naive_solver|].
  destruct (level_invariant_head _ _ _ _ _ _ _ _ _ Hinv Hq)
    as (k' & q1' & q2' & -> & Hinv').
  destruct (decide (cur ∈ seen)) as [Hin|Hin].
  { rewrite loop_body_seen by done. apply (IH k').
    by eapply level_invariant_seen. }
  assert (Hhere : (0 < k')%nat ∧ nsteps (predecessor vw) k' va cur
      ∧ ∀ j b, (0 < j < k')%nat → nsteps (predecessor vw) j va b →
                skipped_at vw reg b).
  { destruct Hinv' as (Hk & H1 & _ & Hs & Hlt & _). split; [done|]. split.
    - apply H1. set_solver.
    - intros j b Hj Hb. apply Hs. by apply (Hlt j). }
  destruct Hhere as (Hk & Hcur & Hcloser).
  destruct (parseOpcode vw cur) as [insn|] eqn:Hdec.
  - destruct (defines reg insn) eqn:Hd.
    + rewrite (loop_body_define _ _ _ _ _ insn) by done.
      intros [= <-]. right. exists cur, k'. repeat (split; [done|]).
      right. by exists insn.
    + rewrite (loop_body_skip _ _ _ _ _ insn) by done.
      rewrite <- app_assoc. apply (IH k').
      apply level_invariant_skip; [done|]. by exists insn.
  - rewrite loop_body_undecoded by done.
    intros [= <-]. right. exists cur, k'. repeat (split; [done|]). by left.
Qed.

(** X5: the definition [find_definition] returns is a nearest one.  It
    lies some [n] backward steps from [va], and every address that reaches
    [va] in fewer steps was decoded and is no destructive write to the
    register. *)
Theorem find_definition_nearest fuel vw va reg addr value :
  find_definition fuel vw va reg = Some (Ok (addr, value)) →
  ∃ n, (0 < n)%nat
    ∧ nsteps (predecessor vw) n va addr
    ∧ ∀ j b, (0 < j < n)%nat → nsteps (predecessor vw) j va b →
             skipped_at vw reg b.
Proof.
  unfold find_definition. intros Hr.
  rewrite <- (app_nil_r (get_previous_instructions vw va)) in Hr.
  apply (find_definition_loop_nearest vw reg va _ 1) in Hr
    as [?|(cur & n & Hn & Hcur & Hcloser & [[_ ?]|(insn & _ & _ & Hex)])];
    [done|done| |apply level_invariant_init].
  symmetry in Hex. apply extract_constant_Ok in Hex as ->. eauto.
Qed.

(** *** What the search depends on *)

Lemma loop_body_local vw1 vw2 reg cur q seen :
  parseOpcode vw1 cur = parseOpcode vw2 cur →
  get_previous_instructions vw1 cur = get_previous_instructions vw2 cur →
  loop_body vw1 reg cur q seen = loop_body vw2 reg cur q seen.
Proof. intros Hdec Hpred. unfold loop_body, decode. by rewrite Hdec, Hpred. Qed.

Lemma find_definition_loop_local vw1 vw2 reg (P : Z → Prop) fuel q seen :
  (∀ a, P a →
     parseOpcode vw1 a = parseOpcode vw2 a
     ∧ get_previous_instructions vw1 a = get_previous_instructions vw2 a
     ∧ ∀ b, b ∈ get_previous_instructions vw1 a → P b) →
  (∀ a, a ∈ q → P a) →
  find_definition_loop fuel vw1 reg q seen
  = find_definition_loop fuel vw2 reg q seen.
Proof.
  intros HP. revert q seen. induction fuel as [|fuel IH]; intros q seen Hq; [done|].
  simpl. destruct q as [|cur q]; [done|].
  assert (P cur) as (Hdec & Hpred & Hclosed)%HP by (apply Hq; set_solver).
  assert (∀ a, a ∈ q → P a) by (intros; apply Hq; set_solver).
  rewrite <- (loop_body_local vw1 vw2) by done.
  destruct (loop_body vw1 reg cur q seen) as [q' seen'|r] eqn:Hbody; [|done].
  apply IH. intros a Ha.
  unfold loop_body in Hbody. destruct (decide (cur ∈ seen)).
  { simplify_eq. auto. }
  destruct (decode vw1 cur); [|done].
  destruct (opers _); [|destruct (negb _)]; simplify_eq;
    apply elem_of_app in Ha as [?|?]; auto.
Qed.

(** X6: the result depends on the workspace only through what lies
    backward of [va].  Two workspaces that give [va] the same predecessors
    and agree, on every address reaching [va] backward in the first, on the
    decoded instruction and on the predecessors give the same result. *)
Theorem find_definition_local fuel vw1 vw2 va reg :
  get_previous_instructions vw1 va = get_previous_instructions vw2 va →
  (∀ a, backward_reachable vw1 va a →
     parseOpcode vw1 a = parseOpcode vw2 a
     ∧ get_previous_instructions vw1 a = get_previous_instructions vw2 a) →
  find_definition fuel vw1 va reg = find_definition fuel vw2 va reg.
Proof.
  intros Hva Hagree. unfold find_definition. rewrite <- Hva.
  apply (find_definition_loop_local vw1 vw2 reg (backward_reachable vw1 va)).
  - intros a Ha. destruct (Hagree a Ha) as [? ?]. repeat (split; [done|]).
    intros b Hb. by eapply tc_r.
  - intros a Ha. by apply tc_once.
Qed.

Lemma processed_within vw reg (P : Z → Prop) fuel q seen a :
  (∀ a b, P a → b ∈ get_previous_instructions vw a → P b) →
  (∀ a, a ∈ q → P a) →
  a ∈ processed fuel vw reg q seen → P a.
Proof.
  intros HP. revert q seen. induction fuel as [|fuel IH]; intros q seen Hq; simpl.
  { by intros ?%elem_of_nil. }
  destruct q as [|cur q]; [by intros ?%elem_of_nil|].
  assert (P cur) by (apply Hq; set_solver).
  assert (∀ a, a ∈ q → P a) by (intros; apply Hq; set_solver).
  intros [Ha|Ha]%elem_of_app.
  { case_decide; [by apply elem_of_nil in Ha|].
    by apply list_elem_of_singleton in Ha as ->. }
  destruct (loop_body vw reg cur q seen) as [q' seen'|r] eqn:Hbody;
    [|by apply elem_of_nil in Ha].
  revert Ha. apply IH. intros b Hb.
  unfold loop_body in Hbody. destruct (decide (cur ∈ seen)).
  { simplify_eq. auto. }
  destruct (decode vw cur); [|done].
  destruct (opers _); [|destruct (negb _)]; simplify_eq;
    apply elem_of_app in Hb as [?|?]; eauto.
Qed.

(** X7: the search decodes only addresses that reach [va] backward, and on
    a finite control-flow graph it calls the decoder at most once per
    address of the graph: the number of decoded instructions is bounded by
    the size of any predecessor-closed set around [va]. *)
Theorem processed_bounded fuel vw va reg X :
  closed_under_predecessors vw va X →
  (∀ a, a ∈ processed fuel vw reg (get_previous_instructions vw va) ∅ →
        a ∈ X ∧ backward_reachable vw va a)
  ∧ length (processed fuel vw reg (get_previous_instructions vw va) ∅) ≤ size X.
Proof.
  intros [Hva Hclosed].
  assert (Hin : ∀ a, a ∈ processed fuel vw reg (get_previous_instructions vw va) ∅ →
                     a ∈ X ∧ backward_reachable vw va a).
  { intros a Ha. split.
    - apply (processed_within vw reg (fun a => a ∈ X) _ _ _ a) in Ha; [done|..].
      + intros b c Hb Hc. specialize (Hclosed b Hb).
        rewrite Forall_forall in Hclosed. by apply Hclosed.
      + by apply Forall_forall.
    - apply (processed_within vw reg (backward_reachable vw va) _ _ _ a) in Ha;
        [done|..].
      + intros b c Hb Hc. by eapply tc_r.
      + intros b Hb. by apply tc_once. }
  split; [done|].
  rewrite <- (size_list_to_set (C := gset Z)) by apply processed_NoDup.
  apply subseteq_size. intros a Ha%elem_of_list_to_set. by apply Hin.
Qed.

(** ** Further properties of the classifier and the resolver *)

Lemma is_indirect_call_given_raises vw va insn e :
  is_indirect_call vw va (Some insn) = Raise e
  ↔ mnem insn = "call"%string ∧ opers insn = [] ∧ e = IndexError.
Proof.
  unfold is_indirect_call; simpl.
  case_bool_decide as Hm; [destruct (opers insn) eqn:Hops|];
    (split; [intros [= <-]|intros (? & ? & ->)]); done.
Qed.

(** X8: [is_indirect_call] raises in two cases only: the provider's error
    when it has to decode [va] and cannot, and IndexError when the
    instruction, given or decoded, is a [call] with an empty operand
    list. *)
Theorem is_indirect_call_raises_iff vw va (given : option Opcode) e :
  is_indirect_call vw va given = Raise e
  ↔ (given = None ∧ parseOpcode vw va = None ∧ e = ProviderError)
    ∨ (∃ insn, (given = Some insn ∨ (given = None ∧ parseOpcode vw va = Some insn))
               ∧ mnem insn = "call"%string
               ∧ opers insn = []
               ∧ e = IndexError).
Proof.
  destruct given as [insn|].
  - rewrite is_indirect_call_given_raises. split.
    + intros (? & ? & ?). right. exists insn. auto.
    + intros [(? & _)|(insn' & [[= <-]|[? _]] & ? & ? & ?)]; done.
  - destruct (parseOpcode vw va) as [insn|] eqn:Hdec.
    + assert (is_indirect_call vw va None = is_indirect_call vw va (Some insn))
        as -> by (unfold is_indirect_call, decode; by rewrite Hdec).
      rewrite is_indirect_call_given_raises. split.
      * intros (? & ? & ?). right. exists insn. auto.
      * intros [(_ & ? & _)|(insn' & [?|[_ [= <-]]] & ? & ? & ?)]; done.
    + assert (is_indirect_call vw va None = Raise ProviderError)
        as -> by (unfold is_indirect_call, decode; by rewrite Hdec).
      split.
      * intros [= <-]. by left.
      * intros [(_ & _ & ->)|(insn' & [?|[_ ?]] & _)]; done.
Qed.

Lemma find_definition_exn fuel vw va reg e :
  find_definition fuel vw va reg = Some (Raise e) →
  e = NotFoundError ∨ e = ProviderError ∨ e = IndexError.
Proof.
  intros Hr.
  apply (find_definition_loop_leaves vw reg (fun _ => True)) in Hr
    as [?|(cur & _ & [[_ ?]|(insn & _ & _ & Hex)])]; [naive_solver..| |done|done].
  symmetry in Hex. apply extract_constant_Raise in Hex as [-> _]. auto.
Qed.

(** X9: [resolve_indirect_call] raises AssertionError exactly when
    assertions are compiled in ([__debug__], the default) and the
    instruction is not a [call], or is a [call] whose first operand is not
    a register operand; neither the search nor the run under -O raises
    it. *)
Theorem resolve_indirect_call_assertion_iff fuel vw va insn :
  resolve_indirect_call fuel vw va (Some insn) = Some (Raise AssertionError)
  ↔ __debug__ = true
    ∧ (mnem insn ≠ "call"%string
       ∨ ∃ opnd0 rest, opers insn = opnd0 :: rest
                       ∧ isinstance_i386RegOper opnd0 = false).
Proof.
  unfold resolve_indirect_call, is_indirect_call; simpl.
  destruct __debug__; simpl.
  - case_bool_decide as Hm; [|naive_solver].
    destruct (opers insn) as [|opnd0 rest] eqn:Hops; [naive_solver|].
    destruct opnd0 as [reg| | | |]; simpl; try naive_solver.
    split; [|naive_solver].
    intros [|[|]]%find_definition_exn; done.
  - split; [|by intros [? _]].
    destruct (opers insn) as [|[reg| | | |] rest]; try done.
    intros [|[|]]%find_definition_exn; done.
Qed.

(** X10: the exceptions of [resolve_indirect_call] are NotFoundError, the
    provider's error, IndexError, AssertionError when assertions are
    compiled in, and AttributeError when they are not.  With the assertion
    in place the [reg] attribute of line 154 is read only off a register
    operand, so AttributeError is never raised; under -O it takes the
    place of AssertionError. *)
Theorem resolve_indirect_call_raises fuel vw va (given : option Opcode) e :
  resolve_indirect_call fuel vw va given = Some (Raise e) →
  e = NotFoundError ∨ e = ProviderError ∨ e = IndexError
  ∨ (e = AssertionError ∧ __debug__ = true)
  ∨ (e = AttributeError ∧ __debug__ = false).
Proof.
  assert (Hgiven : ∀ insn,
    resolve_indirect_call fuel vw va (Some insn) = Some (Raise e) →
    e = NotFoundError ∨ e = ProviderError ∨ e = IndexError
    ∨ (e = AssertionError ∧ __debug__ = true)
    ∨ (e = AttributeError ∧ __debug__ = false)).
  { intros insn. unfold resolve_indirect_call, is_indirect_call; simpl.
    destruct __debug__; simpl.
    - case_bool_decide; [|naive_solver].
      destruct (opers insn) as [|[reg| | | |] rest]; simpl; try naive_solver.
      intros [|[|]]%find_definition_exn; auto.
    - destruct (opers insn) as [|[reg| | | |] rest]; try naive_solver.
      intros [|[|]]%find_definition_exn; auto. }
  destruct given as [insn|]; [apply Hgiven|].
  destruct (parseOpcode vw va) as [insn|] eqn:Hdec.
  - assert (resolve_indirect_call fuel vw va None
            = resolve_indirect_call fuel vw va (Some insn)) as ->
      by (unfold resolve_indirect_call, decode; by rewrite Hdec).
    apply Hgiven.
  - unfold resolve_indirect_call, decode. rewrite Hdec. naive_solver.
Qed.

(** X11: with assertions compiled in, a pair [resolve_indirect_call]
    returns for [va] comes from the search for the register the [call] at
    [va] goes through: the instruction at the returned address is a
    destructive write to that register, and it reaches the call along a
    path with no other such write. *)
Theorem resolve_indirect_call_sound fuel vw va addr value :
  __debug__ = true →
  resolve_indirect_call fuel vw va None = Some (Ok (addr, value)) →
  ∃ call reg rest insn,
    parseOpcode vw va = Some call
    ∧ mnem call = "call"%string
    ∧ opers call = i386RegOper reg :: rest
    ∧ find_definition fuel vw va reg = Some (Ok (addr, value))
    ∧ parseOpcode vw addr = Some insn
    ∧ defines reg insn = true
    ∧ clear_path vw reg va addr.
Proof.
  intros Hdebug. unfold resolve_indirect_call, is_indirect_call, decode.
  rewrite Hdebug.
  destruct (parseOpcode vw va) as [call|]; simpl; [|done].
  case_bool_decide as Hm; [|done].
  destruct (opers call) as [|[reg| | | |] rest] eqn:Hops; simpl; try done.
  intros Hr. exists call, reg, rest.
  destruct (find_definition_loop_Ok _ _ _ _ _ _ _ Hr) as (insn & Hdec & Hd & _).
  exists insn. repeat (split; [done|]).
  apply (find_definition_loop_leaves vw reg (clear_path vw reg va)) in Hr
    as [?|(cur & Hcur & [[_ ?]|(insn' & _ & _ & Hex)])]; try done.
  - symmetry in Hex. by apply extract_constant_Ok in Hex as ->.
  - intros a b Ha Hs Hb. by eapply clear_path_next.
  - intros a Ha. by apply clear_path_first.
Qed.

(** ** When the predecessors are duplicate-free *)

Lemma fallthrough_edge_NoDup vw va : NoDup (fallthrough_edge vw va).
Proof.
  unfold fallthrough_edge.
  destruct (getPrevLocation vw va true) as [[[[pva sz] ptype] pinfo]|];
    [case_decide|]; by repeat constructor; try apply not_elem_of_nil.
Qed.

(** X12: the list of predecessors is duplicate-free exactly when no source
    address occurs twice among the near code references to [va] and the
    instruction that falls through into [va] is not also the source of
    one. *)
Theorem get_previous_instructions_NoDup_iff vw va :
  NoDup (get_previous_instructions vw va)
  ↔ NoDup (near_xref_sources vw va)
    ∧ ∀ a, falls_through_from vw va a → ¬ near_code_xref_from vw va a.
Proof.
  rewrite get_previous_instructions_edges, NoDup_app.
  setoid_rewrite elem_of_fallthrough_edge.
  setoid_rewrite elem_of_near_xref_sources.
  pose proof (fallthrough_edge_NoDup vw va). naive_solver.
Qed.

End Properties.

(** * The properties on the example workspaces *)

Section Examples.
#[local] Existing Instance vivisect_consts.

(** The resolver on the example workspaces. *)
Example resolve_rip_relative :
  resolve_indirect_call 3 vw_riprel 0x4007%Z None
  = Some (Ok (0x4000, Some 0x7000))%Z.
Proof. vm_compute. reflexivity. Qed.

Example resolve_merge :
  resolve_indirect_call 3 vw_merge 0x1012%Z None
  = Some (Ok (0x100c, Some 0x402000))%Z.
Proof. vm_compute. reflexivity. Qed.

Example resolve_unknown_shape :
  resolve_indirect_call 3 vw_indexed 0x5007%Z (Some
    {| op_va := 0x5007; op_size := 2; mnem := "call";
       opers := [i386RegOper eax] |})
  = Some (Ok (0x5000%Z, None)).
Proof. vm_compute. reflexivity. Qed.

Example resolve_loop :
  resolve_indirect_call 5 vw_loop 0x2004%Z None = Some (Raise NotFoundError)
  ∧ processed 5 vw_loop eax (get_previous_instructions vw_loop 0x2004%Z) ∅
    = [0x2002; 0x2001; 0x2000]%Z.
Proof. split; vm_compute; reflexivity. Qed.

Example resolve_direct_call :
  resolve_indirect_call 5 vw_loop 0x3000%Z None = Some (Raise AssertionError).
Proof. vm_compute. reflexivity. Qed.

(** Under -O the direct call gets past line 152 and fails at line 154,
    and an indirect call resolves as before. *)
Example resolve_direct_call_O :
  resolve_indirect_call (consts := vivisect_consts_O) 5 vw_loop 0x3000%Z None
  = Some (Raise AttributeError)
  ∧ resolve_indirect_call (consts := vivisect_consts_O) 3 vw_riprel 0x4007%Z None
    = Some (Ok (0x4000, Some 0x7000))%Z.
Proof. split; vm_compute; reflexivity. Qed.

Lemma find_definition_returned_pair_witness :
  find_definition_loop 1 vw_riprel eax [0x4000%Z] ∅
  = Some (Ok (0x4000, Some 0x7000))%Z.
Proof.
  pose proof (find_definition_returned_pair 0 vw_riprel eax 0x4000 [] ∅
    {| op_va := 0x4000; op_size := 7; mnem := "mov";
       opers := [i386RegOper eax; Amd64RipRelOper 0x2ff9] |}
    [Amd64RipRelOper 0x2ff9]) as H.
  destruct H as [_ H].
  - apply not_elem_of_empty.
  - reflexivity.
  - reflexivity.
  - by_evaluation.
  - exact (H eq_refl _ _ eq_refl).
Defined.

Lemma loop_body_boundary_iff_witness :
  loop_body vw_loop eax 0x2001%Z [] {[ 0x2002%Z ]}
  = Continue [0x2000%Z] {[ 0x2001%Z; 0x2002%Z ]}.
Proof.
  pose proof (loop_body_boundary_iff 0 vw_loop eax 0x2001 [] {[ 0x2002%Z ]}
    {| op_va := 0x2001; op_size := 1; mnem := "add";
       opers := [i386RegOper eax; i386ImmOper 1] |}) as H.
  destruct H as (_ & _ & H).
  - by_evaluation.
  - reflexivity.
  - exact (H (or_intror eq_refl)).
Defined.

Lemma find_definition_terminates_witness :
  (∃ r, ∀ fuel, 5 ≤ fuel → find_definition fuel vw_loop 0x2004%Z eax = Some r)
  ∧ NoDup (processed 5 vw_loop eax (get_previous_instructions vw_loop 0x2004%Z) ∅).
Proof.
  destruct (find_definition_terminates vw_loop 0x2004%Z eax loop_nodes)
    as (H1 & H2 & _).
  - by_evaluation.
  - split; [exact H1 | exact (H2 5)].
Defined.

Lemma find_definition_not_found_iff_witness :
  (∀ a, backward_reachable vw_loop 0x2004%Z a → skipped_at vw_loop eax a)
  ∧ resolve_indirect_call 5 vw_loop 0x2004%Z None = Some (Raise NotFoundError).
Proof.
  destruct (find_definition_not_found_iff 5 vw_loop 0x2004%Z eax loop_nodes)
    as (H1 & _ & H2).
  - by_evaluation.
  - vm_compute. lia.
  - split.
    + apply H1. vm_compute. reflexivity.
    + apply (H2 {| op_va := 0x2004; op_size := 2; mnem := "call";
                   opers := [i386RegOper eax] |} []); reflexivity.
Defined.

Lemma find_definition_first_in_fifo_order_witness :
  find_definition 10 vw_merge 0x1012%Z eax = Some (Ok (0x100c, Some 0x402000))%Z.
Proof.
  destruct (find_definition_first_in_fifo_order 10 vw_merge 0x1012%Z eax
              [0x1011; 0x100c; 0x100a; 0x1003; 0x1005; 0x1000]%Z
              [0x1011%Z] 0x100c%Z [0x100a; 0x1003; 0x1005; 0x1000]%Z
              {| op_va := 0x100c; op_size := 5; mnem := "mov";
                 opers := [i386RegOper eax; i386ImmMemOper 0x402000] |})
    as [H _].
  - vm_compute. reflexivity.
  - reflexivity.
  - intros b ->%list_elem_of_singleton.
    exists {| op_va := 0x1011; op_size := 1; mnem := "nop"; opers := [] |}.
    split; reflexivity.
  - reflexivity.
  - vm_compute. reflexivity.
  - exact H.
Defined.

Lemma extract_constant_never_raises_witness :
  ∃ value,
    extract_constant 0x5000%Z mov_indexed = Ok (0x5000%Z, value)
    ∧ loop_body vw_indexed eax 0x5000%Z [] ∅ = Leave (Ok (0x5000%Z, value))
    ∧ (value = None
       ∨ (∃ imm, opers mov_indexed !! 1 = Some (i386ImmOper imm))
       ∨ (∃ imm, opers mov_indexed !! 1 = Some (i386ImmMemOper imm))
       ∨ (∃ imm, opers mov_indexed !! 1 = Some (Amd64RipRelOper imm))).
Proof.
  apply (extract_constant_never_raises vw_indexed eax 0x5000%Z [] ∅ mov_indexed).
  - apply not_elem_of_empty.
  - reflexivity.
  - vm_compute. reflexivity.
  - intros _. eexists. reflexivity.
Defined.

Lemma find_definition_result_invariant_witness :
  ∃ insn, parseOpcode vw_merge 0x100c%Z = Some insn
    ∧ (∃ rest, opers insn = i386RegOper eax :: rest)
    ∧ mnem insn ∈ DESTRUCTIVE_MNEMONICS
    ∧ (Some 0x402000%Z ≠ None →
       mnem insn = "mov"%string
       ∧ ((∃ imm, opers insn !! 1 = Some (i386ImmOper imm))
          ∨ (∃ imm, opers insn !! 1 = Some (i386ImmMemOper imm))
          ∨ (∃ imm, opers insn !! 1 = Some (Amd64RipRelOper imm)))).
Proof.
  apply (find_definition_result_invariant 3 vw_merge 0x1012%Z eax).
  vm_compute. reflexivity.
Defined.

(** A [jmp] to the next instruction sits just before [0x1002] and does
    not fall through, yet it is returned as a predecessor, being the
    source of the branch: the location before an address is not included
    only when it falls through.  And the source of a code reference that
    is a far branch, the [call] at [0x3000], is left out. *)
Lemma get_previous_instructions_jmp_next :
  getPrevLocation vw_jmp_next 0x1002%Z true = Some (0x1000, 2, LOC_OP, 1)%Z
  ∧ Z.land 1 IF_NOFALL ≠ 0%Z
  ∧ get_previous_instructions vw_jmp_next 0x1002%Z = [0x1000%Z]
  ∧ ¬ (0x1000%Z ∈ get_previous_instructions vw_jmp_next 0x1002%Z
       ↔ LOC_OP = LOC_OP ∧ Z.land 1 IF_NOFALL = 0%Z)
  ∧ (0x3000, 0x2000, 1, 1)%Z ∈ getXrefsTo vw_loop 0x2000%Z REF_CODE
  ∧ 0x3000%Z ∉ get_previous_instructions vw_loop 0x2000%Z.
Proof.
  assert (E : get_previous_instructions vw_jmp_next 0x1002%Z = [0x1000%Z])
    by (vm_compute; reflexivity).
  split_and!; try done.
  - rewrite E. intros [H _].
    by destruct (H (list_elem_of_here _ _)) as [_ ?].
  - by_evaluation.
  - by_evaluation.
Qed.

(** In front of the target of a [jz] to the next instruction, the same
    address is listed twice: once as the fallthrough predecessor and once
    as the source of the branch.  The result is not duplicate-free. *)
Lemma get_previous_instructions_duplicates :
  get_previous_instructions vw_jz_next 0x1002%Z = [0x1000; 0x1000]%Z
  ∧ ¬ NoDup (get_previous_instructions vw_jz_next 0x1002%Z).
Proof.
  assert (E : get_previous_instructions vw_jz_next 0x1002%Z = [0x1000; 0x1000]%Z)
    by (vm_compute; reflexivity).
  split; [exact E|]. rewrite E. intros Hnd.
  apply NoDup_cons in Hnd as [Hnot _]. apply Hnot. apply list_elem_of_here.
Qed.

(** ** The further properties on the example workspaces *)

Lemma find_definition_clear_path_witness :
  clear_path vw_merge eax 0x1012%Z 0x100c%Z
  ∧ backward_reachable vw_merge 0x1012%Z 0x100c%Z.
Proof.
  apply (find_definition_clear_path 3 vw_merge 0x1012%Z eax 0x100c%Z
           (Some 0x402000%Z)).
  vm_compute. reflexivity.
Defined.

Lemma find_definition_raises_witness :
  IndexError = NotFoundError
  ∨ (IndexError = ProviderError
     ∧ ∃ a, clear_path vw_mov_short eax 0x1002%Z a
            ∧ parseOpcode vw_mov_short a = None)
  ∨ (IndexError = IndexError
     ∧ ∃ a insn, clear_path vw_mov_short eax 0x1002%Z a
         ∧ parseOpcode vw_mov_short a = Some insn
         ∧ mnem insn = "mov"%string
         ∧ opers insn = [i386RegOper eax]).
Proof.
  apply (find_definition_raises 2 vw_mov_short 0x1002%Z eax IndexError).
  vm_compute. reflexivity.
Defined.

Lemma find_definition_scans_fifo_order_witness :
  find_definition 10 vw_merge 0x1012%Z eax
  = Some (scan vw_merge eax [0x1011; 0x100c; 0x100a; 0x1003; 0x1005; 0x1000]%Z).
Proof.
  apply (find_definition_scans_fifo_order 10 vw_merge 0x1012%Z eax).
  vm_compute. reflexivity.
Defined.

Lemma find_definition_fallthrough_first_witness :
  find_definition 1 vw_riprel 0x4007%Z eax
  = Some (extract_constant 0x4000%Z
            {| op_va := 0x4000; op_size := 7; mnem := "mov";
               opers := [i386RegOper eax; Amd64RipRelOper 0x2ff9] |}).
Proof.
  apply (find_definition_fallthrough_first 0 vw_riprel 0x4007%Z eax
           0x4000%Z 7%Z 0%Z).
  - reflexivity.
  - reflexivity.
  - reflexivity.
  - vm_compute. reflexivity.
Defined.

Lemma find_definition_nearest_witness :
  ∃ n, (0 < n)%nat
    ∧ nsteps (predecessor vw_merge) n 0x1012%Z 0x100c%Z
    ∧ ∀ j b, (0 < j < n)%nat → nsteps (predecessor vw_merge) j 0x1012%Z b →
             skipped_at vw_merge eax b.
Proof.
  apply (find_definition_nearest 3 vw_merge 0x1012%Z eax 0x100c%Z
           (Some 0x402000%Z)).
  vm_compute. reflexivity.
Defined.

Lemma find_definition_local_witness :
  find_definition 2 vw_riprel 0x4007%Z eax
  = find_definition 2 vw_riprel_more 0x4007%Z eax.
Proof.
  apply (find_definition_local 2 vw_riprel vw_riprel_more 0x4007%Z eax).
  - vm_compute. reflexivity.
  - intros a Ha.
    assert (a = 0x4000%Z) as ->; [|split; vm_compute; reflexivity].
    assert (E1 : get_previous_instructions vw_riprel 0x4007%Z = [0x4000%Z])
      by (vm_compute; reflexivity).
    assert (E2 : get_previous_instructions vw_riprel 0x4000%Z = [])
      by (vm_compute; reflexivity).
    apply tc_nsteps in Ha as (n & Hn & Ha).
    inversion Ha as [|n1 x y z Hxy Hyz]; subst; [lia|].
    unfold predecessor in Hxy. rewrite E1 in Hxy.
    apply list_elem_of_singleton in Hxy as ->.
    inversion Hyz as [|n2 x y z Hxy _]; subst; [reflexivity|].
    unfold predecessor in Hxy. rewrite E2 in Hxy.
    by apply elem_of_nil in Hxy.
Defined.

Lemma processed_bounded_witness :
  (∀ a, a ∈ processed 5 vw_loop eax (get_previous_instructions vw_loop 0x2004%Z) ∅ →
        a ∈ loop_nodes ∧ backward_reachable vw_loop 0x2004%Z a)
  ∧ length (processed 5 vw_loop eax (get_previous_instructions vw_loop 0x2004%Z) ∅)
    ≤ size loop_nodes.
Proof.
  apply (processed_bounded 5 vw_loop 0x2004%Z eax loop_nodes).
  by_evaluation.
Defined.

Lemma resolve_indirect_call_raises_witness :
  AssertionError = NotFoundError ∨ AssertionError = ProviderError
  ∨ AssertionError = IndexError
  ∨ (AssertionError = AssertionError ∧ __debug__ = true)
  ∨ (AssertionError = AttributeError ∧ __debug__ = false).
Proof.
  apply (resolve_indirect_call_raises 5 vw_loop 0x3000%Z None AssertionError).
  vm_compute. reflexivity.
Defined.

Lemma resolve_indirect_call_sound_witness :
  ∃ call reg rest insn,
    parseOpcode vw_riprel 0x4007%Z = Some call
    ∧ mnem call = "call"%string
    ∧ opers call = i386RegOper reg :: rest
    ∧ find_definition 3 vw_riprel 0x4007%Z reg = Some (Ok (0x4000, Some 0x7000))%Z
    ∧ parseOpcode vw_riprel 0x4000%Z = Some insn
    ∧ defines reg insn = true
    ∧ clear_path vw_riprel reg 0x4007%Z 0x4000%Z.
Proof.
  apply (resolve_indirect_call_sound 3 vw_riprel 0x4007%Z).
  - reflexivity.
  - vm_compute. reflexivity.
Defined.

End Examples.
